(** * Running playlist generator: the staleness-aware cache and its reconciler

    A shallow embedding of [cache.py] (the SQLite store, the staleness test,
    the href parser) and of the cache-facing functions of [app.py] (the
    fetch-or-reuse functions, the batch tempo reconciler, the tempo filter),
    followed by the properties the design document states about them.

    Conventions of the embedding.
    - A table with a primary key is a finite map from the key to the row;
      [INSERT OR REPLACE] is map insertion.
    - JSON text written by [json.dumps] and read back by [json.loads] is kept
      as the JSON value itself.
    - Numbers are exact rationals: Python compares an [int] with a [float]
      exactly, and every finite float is a rational.
    - The wall clock is an explicit argument [now] (microseconds since the
      epoch, naive UTC); one invocation reads one clock value.
    - The two upstream services are functions from the requests made so far
      and the present request to an answer; every request is logged.
    - Members are read from JSON objects only ([List[dict]] in the source's
      annotations); the loops that Python writes with [while True] carry
      fuel. *)

From Stdlib Require Import ZArith QArith Lia.
From stdpp Require Import gmap strings list fin_maps.

Open Scope string_scope.
Open Scope list_scope.

Set Warnings "-register-all".

(** ** JSON values and the Python operations used on them *)

Inductive json : Type :=
  | JNull : json
  | JBool : bool -> json
  | JNum : Q -> json
  | JStr : string -> json
  | JList : list json -> json
  | JObj : list (string * json) -> json.

(** The exceptions of [float]. *)
Inductive float_exn : Type :=
  | ValueError
  | TypeError.

(** What lies outside the repository: [datetime.fromisoformat] ([None] is
    its [ValueError]), SQLite's rendering of [CURRENT_TIMESTAMP] at a clock
    value, and [float] applied to a string ([None] is its [ValueError]). *)
Record datetime : Type := mk_datetime {
  wall : Z;
  tzinfo : option Z
}.

Class Runtime : Type := {
  fromisoformat : string -> option datetime;
  CURRENT_TIMESTAMP : Z -> string;
  float_of_str : string -> option Q
}.

Fixpoint assoc (k : string) (kv : list (string * json)) : option json :=
  match kv with
  | [] => None
  | (k', v) :: rest => if String.eqb k k' then Some v else assoc k rest
  end.

(** [d.get(k, default)] *)
Definition get_default (k : string) (default : json) (d : json) : json :=
  match d with
  | JObj kv => match assoc k kv with Some v => v | None => default end
  | _ => default
  end.

(** [d.get(k)] *)
Definition get (k : string) (d : json) : json := get_default k JNull d.

(** Python truthiness, [bool(v)]. *)
Definition truthy (v : json) : bool :=
  match v with
  | JNull => false
  | JBool b => b
  | JNum q => negb (Qeq_bool q 0)
  | JStr s => negb (String.eqb s "")
  | JList l => match l with [] => false | _ => true end
  | JObj kv => match kv with [] => false | _ => true end
  end.

(** [isinstance(v, list)], with the elements. *)
Definition as_list (v : json) : option (list json) :=
  match v with
  | JList l => Some l
  | _ => None
  end.

(** The elements a [for] loop visits. *)
Definition elements_of (v : json) : list json :=
  match as_list v with Some l => l | None => [] end.

(** A member read as [Optional[str]]. *)
Definition as_str (v : json) : option string :=
  match v with
  | JStr s => Some s
  | _ => None
  end.

(** [float(v)] for [v] other than [None], on a number that a double holds
    exactly; [Raising.py_float] below has the rounding and the
    [OverflowError] of the other numbers. *)
Definition py_float `{Runtime} (v : json) : float_exn + Q :=
  match v with
  | JNum q => inr q
  | JBool b => inr (if b then 1 else 0)%Q
  | JStr s => match float_of_str s with Some q => inr q | None => inl ValueError end
  | JNull | JList _ | JObj _ => inl TypeError
  end.

(** ** Strings: [in], [split(sep, maxsplit=1)] *)

Fixpoint strip_prefix (sep s : string) : option string :=
  match sep, s with
  | EmptyString, _ => Some s
  | String a sep', String b s' =>
      if Ascii.eqb a b then strip_prefix sep' s' else None
  | String _ _, EmptyString => None
  end.

(** The text before and after the leftmost occurrence of [sep]. *)
Fixpoint split_once (sep s : string) : option (string * string) :=
  match strip_prefix sep s with
  | Some r => Some (EmptyString, r)
  | None =>
      match s with
      | EmptyString => None
      | String a s' =>
          match split_once sep s' with
          | Some (b, r) => Some (String a b, r)
          | None => None
          end
      end
  end.

(** [sep in s] *)
Definition contains (sep s : string) : bool :=
  match split_once sep s with Some _ => true | None => false end.

(** [s.split(sep, maxsplit=1)] *)
Definition split1 (sep s : string) : list string :=
  match split_once sep s with
  | Some (b, r) => [b; r]
  | None => [s]
  end.

(** [l[0]] and [l[-1]] of a non-empty list. *)
Definition first_of (l : list string) : string := hd "" l.
Definition last_of (l : list string) : string := List.last l "".

(** ** cache.py: helpers *)

Definition CACHE_TTL_DAYS : Z := 30.

(** [timedelta(days=d)] in microseconds. *)
Definition timedelta_days (d : Z) : Z := d * 86400000000.

(** [is_stale(last_fetched, days)], the clock being [now]. *)
Definition is_stale `{Runtime} (now : Z) (last_fetched : string + datetime)
    (days : Z) : bool :=
  let parsed :=
    match last_fetched with
    | inl s => fromisoformat s
    | inr d => Some d
    end in
  match parsed with
  | None => true
  | Some d =>
      let d := match tzinfo d with
               | Some _ => mk_datetime (wall d) None
               | None => d
               end in
      (timedelta_days days <? now - wall d)%Z
  end.

Definition extract_spotify_id_from_href (href : option string) : option string :=
  match href with
  | None => None
  | Some EmptyString => None
  | Some h =>
      let segment :=
        if contains "track/" h then last_of (split1 "track/" h) else h in
      let segment := first_of (split1 "?" segment) in
      match segment with
      | EmptyString => None
      | _ => Some segment
      end
  end.

(** ** cache.py: the tables *)

(** A row of [user_spotify_data], [artist_top_tracks] or
    [reccobeats_recommendations], and the dictionary its loader returns. *)
Record snapshot_row : Type := mk_snapshot {
  payload : json;
  count : Z;
  last_fetched : string
}.

(** A row of [track_features], and the entry [load_track_features] builds
    from it. *)
Record feature_row : Type := mk_feature {
  tempo : option Q;
  features_json : option json;
  feature_last_fetched : string;
  fetch_status : string
}.

Record combined_row : Type := mk_combined {
  track_ids_json : list string;
  combined_count : Z;
  combined_last_fetched : string
}.

Record database : Type := mk_database {
  user_spotify_data : gmap (string * string) snapshot_row;
  artist_top_tracks : gmap string snapshot_row;
  track_features : gmap string feature_row;
  reccobeats_recommendations : gmap string snapshot_row;
  user_combined_tracks : gmap string combined_row
}.

(** [init_db] on a fresh file. *)
Definition init_db : database := mk_database ∅ ∅ ∅ ∅ ∅.

(** [len(payload) if isinstance(payload, list) else 0] *)
Definition payload_count (payload : json) : Z :=
  match as_list payload with
  | Some l => Z.of_nat (length l)
  | None => 0
  end.

Definition load_user_spotify_data (db : database) (spotify_user_id data_key : string)
    : option snapshot_row :=
  user_spotify_data db !! (spotify_user_id, data_key).

Definition save_user_spotify_data `{Runtime} (now : Z)
    (spotify_user_id data_key : string) (payload : json) (db : database)
    : database :=
  let count := payload_count payload in
  mk_database
    (<[(spotify_user_id, data_key) :=
         mk_snapshot payload count (CURRENT_TIMESTAMP now)]>
       (user_spotify_data db))
    (artist_top_tracks db) (track_features db)
    (reccobeats_recommendations db) (user_combined_tracks db).

Definition load_artist_top_tracks (db : database) (artist_id : string)
    : option snapshot_row :=
  artist_top_tracks db !! artist_id.

Definition save_artist_top_tracks `{Runtime} (now : Z) (artist_id : string)
    (payload : json) (db : database) : database :=
  let count := payload_count payload in
  mk_database
    (user_spotify_data db)
    (<[artist_id := mk_snapshot payload count (CURRENT_TIMESTAMP now)]>
       (artist_top_tracks db))
    (track_features db)
    (reccobeats_recommendations db) (user_combined_tracks db).

(** The rows whose key is [IN] the given identities. *)
Definition load_track_features (db : database) (spotify_ids : list string)
    : gmap string feature_row :=
  match spotify_ids with
  | [] => ∅
  | _ => filter (λ kv, kv.1 ∈ spotify_ids) (track_features db)
  end.

Definition upsert_track_feature (spotify_id : string) (row : feature_row)
    (db : database) : database :=
  mk_database
    (user_spotify_data db) (artist_top_tracks db)
    (<[spotify_id := row]> (track_features db))
    (reccobeats_recommendations db) (user_combined_tracks db).

(** The [try] around [float(tempo)]. *)
Definition tempo_of `{Runtime} (tempo : json) : option Q :=
  match tempo with
  | JNull => None
  | _ =>
      match py_float tempo with
      | inr q => Some q
      | inl ValueError => None
      | inl TypeError => None
      end
  end.

(** One turn of the loop of [save_track_features], on a record that is an
    object whose [href] is a string or falsy; [Raising.save_track_feature]
    below has the errors of the other records. *)
Definition save_track_feature `{Runtime} (now : Z) (db : database) (obj : json)
    : database :=
  let href := get "href" obj in
  match extract_spotify_id_from_href (as_str href) with
  | None => db
  | Some spotify_id =>
      let tempo := get "tempo" obj in
      let tempo_val := tempo_of tempo in
      upsert_track_feature spotify_id
        (mk_feature tempo_val (Some obj) (CURRENT_TIMESTAMP now) "ok") db
  end.

Definition save_track_features `{Runtime} (now : Z) (feature_objs : list json)
    (db : database) : database :=
  fold_left (save_track_feature now) feature_objs db.

Definition mark_track_no_data `{Runtime} (now : Z) (db : database)
    (spotify_id : string) : database :=
  upsert_track_feature spotify_id
    (mk_feature None None (CURRENT_TIMESTAMP now) "no_data") db.

Definition mark_tracks_no_data `{Runtime} (now : Z) (spotify_ids : list string)
    (db : database) : database :=
  fold_left (mark_track_no_data now) spotify_ids db.

Definition load_reccobeats_recommendations (db : database) (seed_track_id : string)
    : option snapshot_row :=
  reccobeats_recommendations db !! seed_track_id.

Definition save_reccobeats_recommendations `{Runtime} (now : Z)
    (seed_track_id : string) (recs_list : list json) (db : database)
    : database :=
  let count := Z.of_nat (length recs_list) in
  mk_database
    (user_spotify_data db) (artist_top_tracks db) (track_features db)
    (<[seed_track_id :=
         mk_snapshot (JList recs_list) count (CURRENT_TIMESTAMP now)]>
       (reccobeats_recommendations db))
    (user_combined_tracks db).

Definition load_user_combined_tracks (db : database) (spotify_user_id : string)
    : option (list string) :=
  track_ids_json <$> user_combined_tracks db !! spotify_user_id.

Definition save_user_combined_tracks `{Runtime} (now : Z)
    (spotify_user_id : string) (track_ids : list string) (db : database)
    : database :=
  let count := Z.of_nat (length track_ids) in
  mk_database
    (user_spotify_data db) (artist_top_tracks db) (track_features db)
    (reccobeats_recommendations db)
    (<[spotify_user_id :=
         mk_combined track_ids count (CURRENT_TIMESTAMP now)]>
       (user_combined_tracks db)).

(** ** app.py: the upstream services and the world *)

Inductive request : Type :=
  | CurrentUserTopTracks (limit : Z) (time_range : string)
  | CurrentUserSavedTracks (limit offset : Z)
  | CurrentUserTopArtists (limit : Z) (time_range : string)
  | ArtistTopTracks (artist_id : string)
  | Recommendation (size : Z) (seeds : string)
  | AudioFeatures (ids : string).

(** The answer to a request: the decoded body, or the exception the handlers
    of this module catch ([spotipy.SpotifyException] from the catalog client,
    [requests.RequestException] from [requests.get], [raise_for_status] and
    [response.json]). *)
Inductive reply : Type :=
  | Returned (body : json)
  | Raised.

Record upstream : Type := mk_upstream {
  spotify : list request -> request -> reply;
  reccobeats : list request -> request -> reply
}.

Record world : Type := mk_world {
  db : database;
  log : list request
}.

(** [cached and not cache.is_stale(cached["last_fetched"])], with the payload
    served when it holds. *)
Definition usable `{Runtime} (now : Z) (cached : option snapshot_row)
    : option json :=
  match cached with
  | Some c =>
      if is_stale now (inl (last_fetched c)) CACHE_TTL_DAYS then None
      else Some (payload c)
  | None => None
  end.

Definition fetch_user_top_tracks `{Runtime} (sp : upstream) (now : Z)
    (user_id : string) (limit : Z) (w : world) : json * world :=
  match usable now (load_user_spotify_data (db w) user_id "top_tracks") with
  | Some p => (p, w)
  | None =>
      let req := CurrentUserTopTracks limit "medium_term" in
      match spotify sp (log w) req with
      | Returned response =>
          let items := get_default "items" (JList []) response in
          (items,
           mk_world (save_user_spotify_data now user_id "top_tracks" items (db w))
                    (log w ++ [req]))
      | Raised => (JList [], mk_world (db w) (log w ++ [req]))
      end
  end.

(** The tracks one page appends: [item.get("track")] when it and its [id]
    are truthy. *)
Definition page_tracks (items : list json) : list json :=
  omap (λ item,
          let track := get "track" item in
          if truthy track && truthy (get "id" track) then Some track else None)
       items.

Inductive loop_end : Type :=
  | Completed
  | Failed
  | OutOfFuel.

(** The [while True] of [fetch_user_saved_tracks]: how it ended, the tracks
    accumulated and the requests made. *)
Fixpoint collect_saved_tracks (fuel : nat) (sp : upstream) (limit offset : Z)
    (tracks : list json) (lg : list request)
    : loop_end * list json * list request :=
  match fuel with
  | O => (OutOfFuel, tracks, lg)
  | S fuel' =>
      let req := CurrentUserSavedTracks limit offset in
      match spotify sp lg req with
      | Raised => (Failed, tracks, lg ++ [req])
      | Returned response =>
          let items := get_default "items" (JList []) response in
          if negb (truthy items) then (Completed, tracks, lg ++ [req])
          else
            let tracks := tracks ++ page_tracks (elements_of items) in
            let len_items := Z.of_nat (length (elements_of items)) in
            let offset := (offset + len_items)%Z in
            if (len_items <? limit)%Z then (Completed, tracks, lg ++ [req])
            else collect_saved_tracks fuel' sp limit offset tracks (lg ++ [req])
      end
  end.

Definition fetch_user_saved_tracks `{Runtime} (fuel : nat) (sp : upstream)
    (now : Z) (user_id : string) (limit : Z) (w : world)
    : option (json * world) :=
  match usable now (load_user_spotify_data (db w) user_id "saved_tracks") with
  | Some p => Some (p, w)
  | None =>
      match collect_saved_tracks fuel sp limit 0 [] (log w) with
      | (Completed, tracks, lg) =>
          Some (JList tracks,
                mk_world
                  (save_user_spotify_data now user_id "saved_tracks"
                     (JList tracks) (db w))
                  lg)
      | (Failed, tracks, lg) => Some (JList tracks, mk_world (db w) lg)
      | (OutOfFuel, _, _) => None
      end
  end.

Definition fetch_user_top_artists `{Runtime} (sp : upstream) (now : Z)
    (user_id : string) (limit : Z) (w : world) : json * world :=
  match usable now (load_user_spotify_data (db w) user_id "top_artists") with
  | Some p => (p, w)
  | None =>
      let req := CurrentUserTopArtists limit "medium_term" in
      match spotify sp (log w) req with
      | Returned response =>
          let items := get_default "items" (JList []) response in
          (items,
           mk_world (save_user_spotify_data now user_id "top_artists" items (db w))
                    (log w ++ [req]))
      | Raised => (JList [], mk_world (db w) (log w ++ [req]))
      end
  end.

Definition fetch_artist_top_tracks `{Runtime} (sp : upstream) (now : Z)
    (artist_id : string) (w : world) : json * world :=
  match usable now (load_artist_top_tracks (db w) artist_id) with
  | Some p => (p, w)
  | None =>
      let req := ArtistTopTracks artist_id in
      match spotify sp (log w) req with
      | Returned response =>
          let tracks := get_default "tracks" (JList []) response in
          (tracks,
           mk_world (save_artist_top_tracks now artist_id tracks (db w))
                    (log w ++ [req]))
      | Raised => (JList [], mk_world (db w) (log w ++ [req]))
      end
  end.

(** The identities parsed from the [href] of each record. *)
Definition href_ids (records : list json) : list string :=
  omap (λ obj, extract_spotify_id_from_href (as_str (get "href" obj))) records.

(** [payload.get("content") if isinstance(payload, dict) else None] *)
Definition content_of (payload : json) : json :=
  match payload with
  | JObj _ => get "content" payload
  | _ => JNull
  end.

(** The request [fetch_similar_tracks_for_top_tracks] makes for a seed that
    has no usable record. *)
Definition request_recommendations `{Runtime} (rb : upstream) (now : Z)
    (size : Z) (track_id : string) (similar_ids : gset string) (w : world)
    : gset string * world :=
  let req := Recommendation size track_id in
  match reccobeats rb (log w) req with
  | Returned payload =>
      match as_list (content_of payload) with
      | Some content =>
          (similar_ids ∪ list_to_set (href_ids content),
           mk_world (save_reccobeats_recommendations now track_id content (db w))
                    (log w ++ [req]))
      | None => (similar_ids, mk_world (db w) (log w ++ [req]))
      end
  | Raised => (similar_ids, mk_world (db w) (log w ++ [req]))
  end.



(** ** app.py: the batch reconciler *)

(** The three branches that append [tid] to [missing_ids]. *)
Definition needs_fetch `{Runtime} (now : Z)
    (cached_data : gmap string feature_row) (tid : string) : bool :=
  match cached_data !! tid with
  | None => true
  | Some entry =>
      if String.eqb (fetch_status entry) "ok"
         && is_stale now (inl (feature_last_fetched entry)) CACHE_TTL_DAYS
      then true
      else if String.eqb (fetch_status entry) "no_data"
              && is_stale now (inl (feature_last_fetched entry)) CACHE_TTL_DAYS
      then true
      else false
  end.

(** [range(start, stop, step)] for a positive step. *)
Fixpoint range_from (n start step : nat) : list nat :=
  match n with
  | O => []
  | S n' => start :: range_from n' (start + step) step
  end.

Definition py_range (start stop step : nat) : list nat :=
  range_from ((stop - start + step - 1) / step) start step.

(** [l[i : j]] *)
Definition slice {A : Type} (l : list A) (i j : nat) : list A :=
  take (j - i) (drop i l).

(** The chunks [missing_ids[i : i + 40]] for [i] in
    [range(0, len(missing_ids), 40)]. *)
Definition chunks (missing_ids : list string) : list (list string) :=
  map (λ i, slice missing_ids i (i + 40))
      (py_range 0 (length missing_ids) 40).

(** [[cid for cid in chunk if cid not in returned_ids]] *)
Definition no_data_ids_of (chunk : list string) (returned_ids : gset string)
    : list string :=
  List.filter (λ cid, bool_decide (cid ∉ returned_ids)) chunk.

(** One turn of the loop over the chunks. *)
Definition reconcile_chunk `{Runtime} (rb : upstream) (now : Z) (w : world)
    (chunk : list string) : world :=
  let req := AudioFeatures (String.concat "," chunk) in
  match reccobeats rb (log w) req with
  | Returned payload =>
      match as_list (content_of payload) with
      | Some content =>
          let db1 := save_track_features now content (db w) in
          let returned_ids : gset string := list_to_set (href_ids content) in
          let no_data_ids := no_data_ids_of chunk returned_ids in
          let db2 :=
            match no_data_ids with
            | [] => db1
            | _ => mark_tracks_no_data now no_data_ids db1
            end in
          mk_world db2 (log w ++ [req])
      | None => mk_world (db w) (log w ++ [req])
      end
  | Raised => mk_world (db w) (log w ++ [req])
  end.

Definition missing_ids_of `{Runtime} (now : Z)
    (cached_data : gmap string feature_row) (track_ids : list string)
    : list string :=
  List.filter (needs_fetch now cached_data) track_ids.

Definition fetch_missing_tempos_with_reccobeats `{Runtime} (rb : upstream)
    (now : Z) (track_ids : list string) (w : world)
    : gmap string feature_row * world :=
  match track_ids with
  | [] => (∅, w)
  | _ =>
      let cached_data := load_track_features (db w) track_ids in
      let missing_ids := missing_ids_of now cached_data track_ids in
      match missing_ids with
      | [] => (cached_data, w)
      | _ =>
          let w' := fold_left (reconcile_chunk rb now) (chunks missing_ids) w in
          (load_track_features (db w') track_ids, w')
      end
  end.

(** ** app.py: the tempo filter *)

(** The test a track identity has to pass to be appended. *)
Definition within_band (tempo_data : gmap string feature_row) (cadence_bpm : Z)
    (track_id : string) : bool :=
  let min_bpm := cadence_bpm in
  let max_bpm := (cadence_bpm + 9)%Z in
  match tempo_data !! track_id with
  | None => false
  | Some metrics =>
      if negb (String.eqb (fetch_status metrics) "ok") then false
      else
        match tempo metrics with
        | None => false
        | Some tempo =>
            Qle_bool (inject_Z min_bpm) tempo && Qle_bool tempo (inject_Z max_bpm)
        end
  end.

Definition filter_tracks_by_tempo (track_ids : list string)
    (tempo_data : gmap string feature_row) (cadence_bpm : Z) : list string :=
  List.filter (within_band tempo_data cadence_bpm) track_ids.

(** ** app.py: collecting the user's tracks *)

(** [track.get("id")] when it is truthy, for a track whose [id] is a string or
    falsy, as the Web API types it ([track_typed] below states the typing). *)
Definition track_id_of (track : json) : option string :=
  match as_str (get "id" track) with
  | Some EmptyString | None => None
  | Some track_id => Some track_id
  end.

(** One turn of the loop of [dedupe]; [seen] is the dictionary, in insertion
    order. *)
Definition dedupe_step (seen : list (string * json)) (track : json)
    : list (string * json) :=
  match track_id_of track with
  | None => seen
  | Some track_id =>
      if bool_decide (track_id ∈ seen.*1) then seen
      else seen ++ [(track_id, track)]
  end.

(** [dedupe]: [list(seen.values())] *)
Definition dedupe (tracks : list json) : list json :=
  (fold_left dedupe_step tracks []).*2.

(** ** The errors no handler catches

    The functions above read a record as the source's annotations type it.
    [Raising] has [save_track_features] and the chunk loop on every JSON
    value an upstream can send: a record that is no object, an href that is
    truthy and no string, or an integer tempo beyond the float range makes
    Python raise an error that neither function catches.  The error is raised
    inside the transaction of [save_track_features], so the batch is rolled
    back, and it leaves [fetch_missing_tempos_with_reccobeats]. *)

(** [float(n)] for a number inside the float range: the double nearest to
    it (a JSON float is its own nearest double). *)
Class Doubles : Type := {
  nearest_double : Q -> Q
}.

Module Raising.

Inductive uncaught : Type :=
  | Attribute_error
  | Type_error
  | Overflow_error.

(** The outcome of [float(v)]: a value, an exception the [except] clause
    of [save_track_features] names, or one it does not name. *)
Inductive converted : Type :=
  | Value (q : Q)
  | Caught (e : float_exn)
  | Uncaught (e : uncaught).

(** [float] of an integer raises [OverflowError] from [2**1024 - 2**970]
    on, in absolute value. *)
Definition overflows (q : Q) : bool :=
  Qle_bool (inject_Z (2 ^ 1024 - 2 ^ 970)) q ||
  Qle_bool q (inject_Z (- (2 ^ 1024 - 2 ^ 970))).

Definition py_float `{Runtime} `{Doubles} (v : json) : converted :=
  match v with
  | JNum q => if overflows q then Uncaught Overflow_error
              else Value (nearest_double q)
  | JBool b => Value (if b then 1 else 0)%Q
  | JStr s => match float_of_str s with
              | Some q => Value q
              | None => Caught ValueError
              end
  | JNull | JList _ | JObj _ => Caught TypeError
  end.

(** The [try] around [float(tempo)]. *)
Definition tempo_of `{Runtime} `{Doubles} (tempo : json) : uncaught + option Q :=
  match tempo with
  | JNull => inr None
  | _ =>
      match py_float tempo with
      | Value q => inr (Some q)
      | Caught ValueError => inr None
      | Caught TypeError => inr None
      | Uncaught e => inl e
      end
  end.

(** [obj.get(k)] *)
Definition member (k : string) (obj : json) : uncaught + json :=
  match obj with
  | JObj _ => inr (get k obj)
  | _ => inl Attribute_error
  end.

(** [extract_spotify_id_from_href] on any value: [not href] holds of every
    falsy value; [in] raises on a number or a boolean; [split] is missing on
    a list or an object. *)
Definition extract_spotify_id_from_href (href : json) : uncaught + option string :=
  if negb (truthy href) then inr None
  else
    match href with
    | JStr s => inr (extract_spotify_id_from_href (Some s))
    | JNum _ | JBool _ => inl Type_error
    | JList _ | JObj _ => inl Attribute_error
    | JNull => inr None
    end.

(** One turn of the loop of [save_track_features]. *)
Definition save_track_feature `{Runtime} `{Doubles} (now : Z) (db : database)
    (obj : json) : uncaught + database :=
  match member "href" obj with
  | inl e => inl e
  | inr href =>
      match extract_spotify_id_from_href href with
      | inl e => inl e
      | inr None => inr db
      | inr (Some spotify_id) =>
          match tempo_of (get "tempo" obj) with
          | inl e => inl e
          | inr tempo_val =>
              inr (upsert_track_feature spotify_id
                     (mk_feature tempo_val (Some obj) (CURRENT_TIMESTAMP now) "ok")
                     db)
          end
      end
  end.

(** [save_track_features]: the database after the commit, or the error that
    leaves the function, the transaction rolled back. *)
Fixpoint save_track_features `{Runtime} `{Doubles} (now : Z)
    (feature_objs : list json) (db : database) : uncaught + database :=
  match feature_objs with
  | [] => inr db
  | obj :: rest =>
      match save_track_feature now db obj with
      | inl e => inl e
      | inr db' => save_track_features now rest db'
      end
  end.

(** The loop that collects [returned_ids]. *)
Fixpoint returned_ids (content : list json) : uncaught + list string :=
  match content with
  | [] => inr []
  | obj :: rest =>
      match member "href" obj with
      | inl e => inl e
      | inr href =>
          match extract_spotify_id_from_href href with
          | inl e => inl e
          | inr sid =>
              match returned_ids rest with
              | inl e => inl e
              | inr ids => inr (match sid with Some s => s :: ids | None => ids end)
              end
          end
      end
  end.

(** One turn of the loop over the chunks: the world after it, and the error
    that leaves the loop if one is raised. *)
Definition reconcile_chunk `{Runtime} `{Doubles} (rb : upstream) (now : Z)
    (w : world) (chunk : list string) : option uncaught * world :=
  let req := AudioFeatures (String.concat "," chunk) in
  match reccobeats rb (log w) req with
  | Returned payload =>
      match as_list (content_of payload) with
      | Some content =>
          match save_track_features now content (db w) with
          | inl e => (Some e, mk_world (db w) (log w ++ [req]))
          | inr db1 =>
              match returned_ids content with
              | inl e => (Some e, mk_world db1 (log w ++ [req]))
              | inr ids =>
                  let returned : gset string := list_to_set ids in
                  let no_data_ids := no_data_ids_of chunk returned in
                  let db2 :=
                    match no_data_ids with
                    | [] => db1
                    | _ => mark_tracks_no_data now no_data_ids db1
                    end in
                  (None, mk_world db2 (log w ++ [req]))
              end
          end
      | None => (None, mk_world (db w) (log w ++ [req]))
      end
  | Raised => (None, mk_world (db w) (log w ++ [req]))
  end.

Fixpoint reconcile_chunks `{Runtime} `{Doubles} (rb : upstream) (now : Z)
    (cs : list (list string)) (w : world) : option uncaught * world :=
  match cs with
  | [] => (None, w)
  | chunk :: rest =>
      match reconcile_chunk rb now w chunk with
      | (Some e, w') => (Some e, w')
      | (None, w') => reconcile_chunks rb now rest w'
      end
  end.

Definition fetch_missing_tempos_with_reccobeats `{Runtime} `{Doubles}
    (rb : upstream) (now : Z) (track_ids : list string) (w : world)
    : (uncaught + gmap string feature_row) * world :=
  match track_ids with
  | [] => (inr ∅, w)
  | _ =>
      let cached_data := load_track_features (db w) track_ids in
      let missing_ids := missing_ids_of now cached_data track_ids in
      match missing_ids with
      | [] => (inr cached_data, w)
      | _ =>
          match reconcile_chunks rb now (chunks missing_ids) w with
          | (Some e, w') => (inl e, w')
          | (None, w') => (inr (load_track_features (db w') track_ids), w')
          end
      end
  end.

End Raising.

(** ** Fixtures: a runtime and sample data for closed examples *)

Fixpoint digits_value (acc : Z) (s : string) : option Z :=
  match s with
  | EmptyString => Some acc
  | String c s' =>
      let n := Z.of_nat (Ascii.nat_of_ascii c) in
      if ((48 <=? n) && (n <=? 57))%Z
      then digits_value (10 * acc + (n - 48))%Z s'
      else None
  end.

Definition parse_decimal (s : string) : option Z :=
  match s with
  | EmptyString => None
  | _ => digits_value 0 s
  end.

Fixpoint render_digits (fuel : nat) (n : Z) (acc : string) : string :=
  match fuel with
  | O => acc
  | S fuel' =>
      let d := Ascii.ascii_of_nat (Z.to_nat (48 + n mod 10)) in
      if (n <? 10)%Z then String d acc
      else render_digits fuel' (n / 10)%Z (String d acc)
  end.

(** A runtime whose timestamps are decimal counts of microseconds and whose
    [float] reads unsigned decimal integers. *)
Definition decimal_runtime : Runtime := {|
  fromisoformat s := (λ t, mk_datetime t None) <$> parse_decimal s;
  CURRENT_TIMESTAMP now := render_digits 40 now EmptyString;
  float_of_str s := inject_Z <$> parse_decimal s
|}.

(** ** Declarative vocabulary for the statements *)

(** [s] reads [pre], then [sep], then [rest], and [sep] does not start
    earlier in [s]. *)
Definition first_occurrence (sep s pre rest : string) : Prop :=
  s = pre +:+ sep +:+ rest ∧
  ∀ pre' rest', s = pre' +:+ sep +:+ rest' →
    (String.length pre ≤ String.length pre')%nat.

Definition no_occurrence (sep s : string) : Prop :=
  ∀ pre rest, s ≠ pre +:+ sep +:+ rest.

(** A segment with its query string (everything from the first [?])
    stripped. *)
Definition query_stripped (segment : string) : string :=
  first_of (split1 "?" segment).

(** The identity read as the specification words it: what follows the
    leftmost [track/] marker, without the query string. *)
Definition follows_marker (href sid : string) : Prop :=
  ∃ pre rest, first_occurrence "track/" href pre rest ∧
              sid = query_stripped rest.

Definition nonempty (s : string) : option string :=
  match s with
  | EmptyString => None
  | _ => Some s
  end.

(** Sample feature map of the boundary cases at cadence 160. *)
Definition band_sample : gmap string feature_row :=
  <["t160" := mk_feature (Some (160 # 1)) (Some (JObj [])) "0" "ok"]>
  (<["t169" := mk_feature (Some (169 # 1)) (Some (JObj [])) "0" "ok"]>
  (<["t159_9" := mk_feature (Some (1599 # 10)) (Some (JObj [])) "0" "ok"]>
  (<["t169_1" := mk_feature (Some (1691 # 10)) (Some (JObj [])) "0" "ok"]>
  (<["nodata" := mk_feature None None "0" "no_data"]>
  (<["null" := mk_feature None (Some (JObj [])) "0" "ok"]> ∅))))).

(** The row [save_track_features] writes for a record, and the row
    [mark_tracks_no_data] writes. *)
Definition ok_row `{Runtime} (now : Z) (obj : json) : feature_row :=
  mk_feature (tempo_of (get "tempo" obj)) (Some obj) (CURRENT_TIMESTAMP now) "ok".

Definition no_data_row `{Runtime} (now : Z) : feature_row :=
  mk_feature None None (CURRENT_TIMESTAMP now) "no_data".

(** The identity a record is stored under. *)
Definition identity_of (obj : json) : option string :=
  extract_spotify_id_from_href (as_str (get "href" obj)).

(** The invariant of the data model on a track-feature record. *)
Definition feature_invariant (row : feature_row) : Prop :=
  (is_Some (tempo row) → fetch_status row = "ok") ∧
  (fetch_status row = "no_data" → tempo row = None ∧ features_json row = None).

Definition features_invariant (db0 : database) : Prop :=
  ∀ k row, track_features db0 !! k = Some row → feature_invariant row.

(** The databases the write operations of [cache.py] build from a fresh
    file. *)
Inductive reachable `{Runtime} : database → Prop :=
  | reach_init : reachable init_db
  | reach_user now user_id data_key p db0 :
      reachable db0 →
      reachable (save_user_spotify_data now user_id data_key p db0)
  | reach_artist now artist_id p db0 :
      reachable db0 → reachable (save_artist_top_tracks now artist_id p db0)
  | reach_features now feature_objs db0 :
      reachable db0 → reachable (save_track_features now feature_objs db0)
  | reach_no_data now spotify_ids db0 :
      reachable db0 → reachable (mark_tracks_no_data now spotify_ids db0)
  | reach_recommendations now seed recs db0 :
      reachable db0 →
      reachable (save_reccobeats_recommendations now seed recs db0)
  | reach_combined now user_id ids db0 :
      reachable db0 → reachable (save_user_combined_tracks now user_id ids db0).

(** A record whose tempo is text that is no number, and one whose tempo is
    a list. *)
Definition bad_tempo_record : json :=
  JObj [("href", JStr "https://api.reccobeats.com/v1/track/t1");
        ("tempo", JStr "fast")].

Definition list_tempo_record : json :=
  JObj [("href", JStr "https://api.reccobeats.com/v1/track/t2?x=1");
        ("tempo", JList [JNum (120 # 1)])].

(** The request that carries a chunk. *)
Definition chunk_request (chunk : list string) : request :=
  AudioFeatures (String.concat "," chunk).

(** The identities whose rows one turn of the chunk loop writes. *)
Definition writes_of (rb : upstream) (w : world) (chunk : list string)
    : list string :=
  match reccobeats rb (log w) (chunk_request chunk) with
  | Returned payload =>
      match as_list (content_of payload) with
      | Some content =>
          href_ids content ++
          no_data_ids_of chunk (list_to_set (href_ids content))
      | None => []
      end
  | Raised => []
  end.



Definition fresh_world : world := mk_world init_db [].

(** A store holding a fresh [no_data] row, a stale [ok] row and a stale
    [no_data] row at clock [40 days], and an upstream that always fails. *)
Definition day : Z := 86400000000.


Definition failing_upstream : upstream :=
  mk_upstream (λ _ _, Raised) (λ _ _, Raised).



(** The record of a key is absent or stale. *)
Definition absent_or_stale `{Runtime} (now : Z) (cached : option snapshot_row)
    : Prop :=
  cached = None ∨
  ∃ c, cached = Some c ∧
       is_stale now (inl (last_fetched c)) CACHE_TTL_DAYS = true.

(** A catalog whose first page of saved tracks holds one track and whose
    every other answer is an error. *)
Definition saved_track_t1 : json := JObj [("id", JStr "t1")].

Definition second_page_fails : upstream :=
  mk_upstream
    (λ _ req,
       match req with
       | CurrentUserSavedTracks _ 0 =>
           Returned (JObj [("items", JList [JObj [("track", saved_track_t1)]])])
       | _ => Raised
       end)
    (λ _ _, Raised).

(** A world that holds a top-tracks record written at clock 0. *)
Definition cached_world : world :=
  mk_world
    (@save_user_spotify_data decimal_runtime 0 "u" "top_tracks"
       (JList [saved_track_t1]) init_db)
    [].

(** Two databases that differ at most in [track_features]. *)
Definition same_outside_features (d d' : database) : Prop :=
  user_spotify_data d = user_spotify_data d' ∧
  artist_top_tracks d = artist_top_tracks d' ∧
  reccobeats_recommendations d = reccobeats_recommendations d' ∧
  user_combined_tracks d = user_combined_tracks d'.

(** The two records of the cache's own test, and the record of [t1] again
    with another tempo. *)
Definition test_features : list json :=
  [JObj [("href", JStr "https://api.reccobeats.com/v1/track/t1");
         ("tempo", JNum (241 # 2))];
   JObj [("href", JStr "https://api.reccobeats.com/v1/track/t2");
         ("tempo", JNull)]].

(** What the loop of [dedupe] maintains, [done] being the tracks visited:
    every entry of the dictionary is a visited track under its own identity,
    keys are distinct, values keep the order of the visit, and the entry of
    an identity is the first visited track that carries it. *)
Definition dedupe_invariant (done : list json) (seen : list (string * json))
    : Prop :=
  Forall (λ kt, track_id_of kt.2 = Some kt.1) seen ∧
  NoDup seen.*1 ∧
  seen.*2 `sublist_of` done ∧
  (∀ pre track post k,
     done = pre ++ track :: post →
     track_id_of track = Some k →
     (∀ o, In o pre → track_id_of o ≠ Some k) →
     In (k, track) seen).









(** A record on which no turn of [save_track_features] raises: an object
    whose href is falsy or a string and whose tempo, when it is a number,
    is inside the float range. *)
Definition well_formed_record (obj : json) : bool :=
  match obj with
  | JObj _ =>
      (negb (truthy (get "href" obj))
       || match get "href" obj with JStr _ => true | _ => false end)
      && match get "tempo" obj with
         | JNum q => negb (Raising.overflows q)
         | _ => true
         end
  | _ => false
  end.

(** The row [Raising.save_track_features] writes for a record: the tempo
    [float] converts to, or none when the tempo is null or [float] raises
    an error the [except] clause names. *)
Definition stored_row `{Runtime} `{Doubles} (now : Z) (obj : json)
    : feature_row :=
  mk_feature
    (match Raising.tempo_of (get "tempo" obj) with inr t => t | inl _ => None end)
    (Some obj) (CURRENT_TIMESTAMP now) "ok".

(** Upserting, record by record, the row [rowf] gives under the identity of
    the record. *)
Definition upsert_rows (rowf : json → feature_row) (objs : list json)
    (db0 : database) : database :=
  fold_left
    (λ d obj,
       match identity_of obj with
       | None => d
       | Some sid => upsert_track_feature sid (rowf obj) d
       end)
    objs db0.

(** Doubles that are all exact, an upstream whose feature endpoint fails on
    the first request and answers the later ones with one record for [a41],
    and a record whose tempo is an integer beyond the float range. *)
Definition exact_doubles : Doubles := {| nearest_double q := q |}.



Definition overflow_record : json :=
  JObj [("href", JStr "https://api.reccobeats.com/v1/track/t1");
        ("tempo", JNum (inject_Z (10 ^ 400)))].


(** A track as the Web API types it: an object whose [id] is a string or
    falsy. *)
Definition track_typed (track : json) : bool :=
  match track with
  | JObj _ =>
      match get "id" track with
      | JStr _ => true
      | track_id => negb (truthy track_id)
      end
  | _ => false
  end.

(** Three tracks, the last repeating the identity of the first, and one
    without identity between them. *)
Definition repeated_tracks : list json :=
  [JObj [("id", JStr "t1"); ("name", JStr "first")];
   JObj [("name", JStr "nameless")];
   JObj [("id", JStr "t1"); ("name", JStr "again")]].

(** An item of a saved-tracks page as the Web API types it: an object whose
    [track] is an object or falsy. *)
Definition saved_item_typed (item : json) : bool :=
  match item with
  | JObj _ =>
      match get "track" item with
      | JObj _ => true
      | track => negb (truthy track)
      end
  | _ => false
  end.

(** The requests of a run of [fetch_user_saved_tracks] that reads [pages]
    from [offset] on and then asks for one more page. *)
Fixpoint saved_requests (limit offset : Z) (pages : list (list json))
    : list request :=
  CurrentUserSavedTracks limit offset ::
  match pages with
  | [] => []
  | page :: rest =>
      saved_requests limit (offset + Z.of_nat (length page)) rest
  end.

(** The catalog answers those requests, made in turn after the history [lg],
    with the pages [pages], each a full page of typed items in an object
    response, and the last request with its error. *)
Fixpoint reads_pages (sp : upstream) (limit offset : Z) (lg : list request)
    (pages : list (list json)) : Prop :=
  let req := CurrentUserSavedTracks limit offset in
  match pages with
  | [] => spotify sp lg req = Raised
  | page :: rest =>
      (∃ kv, spotify sp lg req = Returned (JObj kv) ∧
             get_default "items" (JList []) (JObj kv) = JList page) ∧
      page ≠ [] ∧
      (limit ≤ Z.of_nat (length page))%Z ∧
      Forall (λ item, saved_item_typed item = true) page ∧
      reads_pages sp limit (offset + Z.of_nat (length page)) (lg ++ [req]) rest
  end.

(** A catalog of three saved tracks read two to a page, whose third request is
    answered with an error; the second item of the first page has no
    track. *)
Definition saved_track_t2 : json := JObj [("id", JStr "t2")].
Definition saved_track_t3 : json := JObj [("id", JStr "t3")].

Definition first_saved_page : list json :=
  [JObj [("track", saved_track_t1)]; JObj [("track", JNull)]].

Definition second_saved_page : list json :=
  [JObj [("track", saved_track_t2)]; JObj [("track", saved_track_t3)]].

Definition third_page_fails : upstream :=
  mk_upstream
    (λ _ req,
       match req with
       | CurrentUserSavedTracks _ 0 =>
           Returned (JObj [("items", JList first_saved_page)])
       | CurrentUserSavedTracks _ 2 =>
           Returned (JObj [("items", JList second_saved_page)])
       | _ => Raised
       end)
    (λ _ _, Raised).

(** * Properties *)

(** ** Strings *)

#[local] Arguments String.append : simpl nomatch.

Lemma strip_prefix_Some (sep s r : string) :
  strip_prefix sep s = Some r ↔ s = sep +:+ r.
Proof.
  revert s. induction sep as [|a sep IH]; intros s; simpl.
  - split; congruence.
  - destruct s as [|b s]; simpl.
    + split; discriminate.
    + destruct (Ascii.eqb a b) eqn:E.
      * apply Ascii.eqb_eq in E. subst b. rewrite IH.
        split; [intros ->; reflexivity | intros [= ->]; reflexivity].
      * apply Ascii.eqb_neq in E. split; [discriminate | intros [= ? ?]; congruence].
Qed.

Lemma split_once_Some (sep s b r : string) :
  split_once sep s = Some (b, r) → first_occurrence sep s b r.
Proof.
  revert b. induction s as [|a s IH]; intros b; simpl.
  - destruct (strip_prefix sep "") eqn:E; [|discriminate].
    intros [= <- <-]. apply strip_prefix_Some in E.
    split; [exact E | intros; simpl; lia].
  - destruct (strip_prefix sep (String a s)) eqn:E.
    + intros [= <- <-]. apply strip_prefix_Some in E.
      split; [exact E | intros; simpl; lia].
    + destruct (split_once sep s) as [[b0 r0]|] eqn:E0; [|discriminate].
      intros [= <- <-]. destruct (IH b0 eq_refl) as [Hs Hmin].
      split; [simpl; congruence|].
      intros [|a' pre'] rest' Heq; simpl in Heq.
      * apply strip_prefix_Some in Heq. congruence.
      * injection Heq as -> Heq. simpl. specialize (Hmin _ _ Heq). lia.
Qed.

Lemma split_once_None (sep s : string) :
  split_once sep s = None → no_occurrence sep s.
Proof.
  induction s as [|a s IH]; simpl.
  - destruct (strip_prefix sep "") eqn:E; [discriminate|].
    intros _ [|a' pre] rest Heq; simpl in Heq; [|discriminate].
    apply strip_prefix_Some in Heq. congruence.
  - destruct (strip_prefix sep (String a s)) eqn:E; [discriminate|].
    destruct (split_once sep s) as [[b0 r0]|] eqn:E0; [discriminate|].
    intros _ [|a' pre] rest Heq; simpl in Heq.
    + apply strip_prefix_Some in Heq. congruence.
    + injection Heq as -> Heq. exact (IH eq_refl _ _ Heq).
Qed.

Lemma append_cancel_l (sep a b : string) : sep +:+ a = sep +:+ b → a = b.
Proof.
  induction sep as [|c sep IH]; simpl; [tauto|].
  intros [= Heq]. exact (IH Heq).
Qed.

Lemma first_occurrence_split_once (sep s pre rest : string) :
  first_occurrence sep s pre rest → split_once sep s = Some (pre, rest).
Proof.
  intros [Hs Hmin].
  destruct (split_once sep s) as [[b r]|] eqn:E.
  - destruct (split_once_Some _ _ _ _ E) as [Hs' Hmin'].
    specialize (Hmin _ _ Hs'). specialize (Hmin' _ _ Hs).
    assert (Hlen : String.length b = String.length pre) by lia.
    clear Hmin Hmin' E. subst s. revert b Hlen Hs'.
    induction pre as [|a pre IH]; intros [|a' b] Hlen Hs'; simpl in *;
      try discriminate.
    + apply append_cancel_l in Hs'. congruence.
    + injection Hs' as -> Hs'. injection Hlen as Hlen.
      specialize (IH _ Hlen Hs'). congruence.
  - exfalso. exact (split_once_None _ _ E _ _ Hs).
Qed.

Lemma no_occurrence_split_once (sep s : string) :
  no_occurrence sep s → split_once sep s = None.
Proof.
  intros Hno. destruct (split_once sep s) as [[b r]|] eqn:E; [|reflexivity].
  exfalso. destruct (split_once_Some _ _ _ _ E) as [Hs _]. exact (Hno _ _ Hs).
Qed.

(** ** The href parser *)

Lemma query_stripped_first (s pre rest : string) :
  first_occurrence "?" s pre rest → query_stripped s = pre.
Proof.
  intros Hfirst. unfold query_stripped, split1.
  rewrite (first_occurrence_split_once _ _ _ _ Hfirst). reflexivity.
Qed.

Lemma query_stripped_none (s : string) :
  no_occurrence "?" s → query_stripped s = s.
Proof.
  intros Hno. unfold query_stripped, split1.
  rewrite (no_occurrence_split_once _ _ Hno). reflexivity.
Qed.

Lemma extract_of_nonempty (c : Ascii.ascii) (h : string) :
  extract_spotify_id_from_href (Some (String c h)) =
  nonempty (query_stripped
              (if contains "track/" (String c h)
               then last_of (split1 "track/" (String c h))
               else String c h)).
Proof. reflexivity. Qed.

Lemma extract_never_empty (href : option string) :
  extract_spotify_id_from_href href ≠ Some "".
Proof.
  destruct href as [[|c h]|]; try discriminate.
  rewrite extract_of_nonempty. unfold nonempty.
  destruct (query_stripped _); discriminate.
Qed.

Lemma extract_with_marker (href pre rest : string) :
  first_occurrence "track/" href pre rest →
  extract_spotify_id_from_href (Some href) = nonempty (query_stripped rest).
Proof.
  intros Hfirst. pose proof (first_occurrence_split_once _ _ _ _ Hfirst) as E.
  destruct href as [|c h].
  - destruct Hfirst as [Hs _]. destruct pre; discriminate.
  - rewrite extract_of_nonempty. unfold contains, split1. rewrite E.
    reflexivity.
Qed.

Lemma extract_without_marker (href : string) :
  href ≠ "" → no_occurrence "track/" href →
  extract_spotify_id_from_href (Some href) = nonempty (query_stripped href).
Proof.
  intros Hne Hno. pose proof (no_occurrence_split_once _ _ Hno) as E.
  destruct href as [|c h]; [congruence|].
  rewrite extract_of_nonempty. unfold contains. rewrite E. reflexivity.
Qed.

Lemma raising_save_track_feature_skip `{Runtime} `{Doubles} (now : Z)
    (db0 : database) (kv : list (string * json)) :
  truthy (get "href" (JObj kv)) = false ∨
    (∃ s, get "href" (JObj kv) = JStr s) →
  extract_spotify_id_from_href (as_str (get "href" (JObj kv))) = None →
  Raising.save_track_feature now db0 (JObj kv) = inr db0.
Proof.
  intros Hhref Hnone. unfold Raising.save_track_feature, Raising.member.
  unfold Raising.extract_spotify_id_from_href.
  destruct Hhref as [Hf|(s & Hs)].
  - rewrite Hf. reflexivity.
  - rewrite Hs in *. change (as_str (JStr s)) with (Some s) in Hnone.
    destruct (truthy (JStr s)); cbn [negb]; [rewrite Hnone|]; reflexivity.
Qed.

(** C9, as the code has it. When the href contains the literal [track/], the
    identity is the text after its leftmost occurrence, cut at the first [?];
    when the href does not contain the marker, the whole href, cut at the
    first [?], is the identity.  A missing href, an empty href and an empty
    resulting segment give no identity, never the empty key, and
    [save_track_features] passes over a record (an object) whose href is
    falsy, or a string that gives no identity, without writing and goes on
    with the records that follow. *)
Theorem extract_spotify_id_from_href_spec :
  extract_spotify_id_from_href None = None ∧
  extract_spotify_id_from_href (Some "") = None ∧
  (∀ href pre rest, first_occurrence "track/" href pre rest →
     extract_spotify_id_from_href (Some href) = nonempty (query_stripped rest)) ∧
  (∀ href, href ≠ "" → no_occurrence "track/" href →
     extract_spotify_id_from_href (Some href) = nonempty (query_stripped href)) ∧
  (∀ s pre rest, first_occurrence "?" s pre rest → query_stripped s = pre) ∧
  (∀ s, no_occurrence "?" s → query_stripped s = s) ∧
  (∀ href, extract_spotify_id_from_href href ≠ Some "") ∧
  (∀ (rt : Runtime) (dbl : Doubles) now db0 kv rest,
     truthy (get "href" (JObj kv)) = false ∨
       (∃ s, get "href" (JObj kv) = JStr s) →
     extract_spotify_id_from_href (as_str (get "href" (JObj kv))) = None →
     Raising.save_track_features now (JObj kv :: rest) db0 =
     Raising.save_track_features now rest db0).
Proof.
  split; [reflexivity|]. split; [reflexivity|].
  split; [exact extract_with_marker|].
  split; [exact extract_without_marker|].
  split; [exact query_stripped_first|].
  split; [exact query_stripped_none|].
  split; [exact extract_never_empty|].
  intros rt dbl now db0 kv rest Hhref Hnone. simpl.
  rewrite (raising_save_track_feature_skip now db0 kv Hhref Hnone). reflexivity.
Qed.

(** C9, counterexample to the claim as worded: an href without the marker
    still yields an identity, which therefore does not follow any [track/]. *)
Lemma extract_spotify_id_from_href_no_marker :
  ∃ sid, extract_spotify_id_from_href (Some "4uLU6hMCjMI75M1A2tKUQC") = Some sid ∧
         ¬ follows_marker "4uLU6hMCjMI75M1A2tKUQC" sid.
Proof.
  exists "4uLU6hMCjMI75M1A2tKUQC". split; [reflexivity|].
  intros (pre & rest & [Hs _] & _).
  assert (Hno : no_occurrence "track/" "4uLU6hMCjMI75M1A2tKUQC")
    by (apply split_once_None; reflexivity).
  exact (Hno _ _ Hs).
Qed.

Lemma extract_spotify_id_from_href_spec_witness :
  first_occurrence "track/" "https://api.reccobeats.com/v1/track/abc?x=1"
    "https://api.reccobeats.com/v1/" "abc?x=1" ∧
  extract_spotify_id_from_href
    (Some "https://api.reccobeats.com/v1/track/abc?x=1") = Some "abc".
Proof.
  assert (Hfirst :
    first_occurrence "track/" "https://api.reccobeats.com/v1/track/abc?x=1"
      "https://api.reccobeats.com/v1/" "abc?x=1")
    by (apply split_once_Some; reflexivity).
  split; [exact Hfirst|].
  exact (proj1 (proj2 (proj2 extract_spotify_id_from_href_spec)) _ _ _ Hfirst).
Defined.

(** ** The staleness policy *)

Lemma is_stale_datetime `{Runtime} (now days : Z) (d : datetime) :
  is_stale now (inr d) days = true ↔ (now - wall d > timedelta_days days)%Z.
Proof.
  unfold is_stale. destruct (tzinfo d); simpl; rewrite Z.ltb_lt; lia.
Qed.

Lemma is_stale_string `{Runtime} (now days : Z) (s : string) :
  is_stale now (inl s) days =
  match fromisoformat s with
  | Some d => is_stale now (inr d) days
  | None => true
  end.
Proof. unfold is_stale. destruct (fromisoformat s); reflexivity. Qed.

(** C6. [is_stale] answers true exactly when the clock minus the timestamp
    (its wall-clock reading, any UTC offset dropped as the source does)
    exceeds the TTL in days; the default TTL is 30 days, so a record fetched
    at [T] is fresh on [T, T + 30d) and stale strictly after [T + 30d]; a string that
    [fromisoformat] rejects is stale, whatever the clock and the TTL. *)
Theorem is_stale_spec `{Runtime} (now days : Z) :
  (∀ d, is_stale now (inr d) days = true ↔
        (now - wall d > timedelta_days days)%Z) ∧
  (∀ s d, fromisoformat s = Some d →
          (is_stale now (inl s) days = true ↔
           (now - wall d > timedelta_days days)%Z)) ∧
  (∀ s, fromisoformat s = None → is_stale now (inl s) days = true) ∧
  CACHE_TTL_DAYS = 30%Z ∧
  (∀ s d, fromisoformat s = Some d →
          (wall d ≤ now < wall d + timedelta_days 30)%Z →
          is_stale now (inl s) CACHE_TTL_DAYS = false) ∧
  (∀ s d, fromisoformat s = Some d →
          (now > wall d + timedelta_days 30)%Z →
          is_stale now (inl s) CACHE_TTL_DAYS = true).
Proof.
  split; [intros d; apply is_stale_datetime|].
  split; [intros s d E; rewrite is_stale_string, E; apply is_stale_datetime|].
  split; [intros s E; rewrite is_stale_string, E; reflexivity|].
  split; [reflexivity|].
  split.
  - intros s d E Hwin. rewrite is_stale_string, E.
    apply not_true_is_false. rewrite is_stale_datetime.
    unfold CACHE_TTL_DAYS. lia.
  - intros s d E Hlate. rewrite is_stale_string, E.
    rewrite is_stale_datetime. unfold CACHE_TTL_DAYS. lia.
Qed.

Lemma is_stale_spec_witness :
  @is_stale decimal_runtime (29 * day) (inl "0") CACHE_TTL_DAYS = false ∧
  @is_stale decimal_runtime (30 * day) (inl "0") CACHE_TTL_DAYS = false ∧
  @is_stale decimal_runtime (30 * day + 1) (inl "0") CACHE_TTL_DAYS = true ∧
  @is_stale decimal_runtime 0 (inl "yesterday") CACHE_TTL_DAYS = true.
Proof.
  destruct (@is_stale_spec decimal_runtime (29 * day) CACHE_TTL_DAYS)
    as (_ & _ & _ & _ & Hfresh & _).
  destruct (@is_stale_spec decimal_runtime (30 * day + 1) CACHE_TTL_DAYS)
    as (_ & _ & _ & _ & _ & Hstale).
  destruct (@is_stale_spec decimal_runtime 0 CACHE_TTL_DAYS)
    as (_ & _ & Hbad & _).
  split; [apply (Hfresh "0" (mk_datetime 0 None) eq_refl); vm_compute; split;
          [discriminate | reflexivity]|].
  split; [vm_compute; reflexivity|].
  split; [apply (Hstale "0" (mk_datetime 0 None) eq_refl); vm_compute;
          reflexivity|].
  apply Hbad. reflexivity.
Defined.

(** ** The tempo filter *)

Lemma within_band_true (tempo_data : gmap string feature_row) (cadence_bpm : Z)
    (track_id : string) :
  within_band tempo_data cadence_bpm track_id = true ↔
  ∃ metrics t,
    tempo_data !! track_id = Some metrics ∧
    fetch_status metrics = "ok" ∧
    tempo metrics = Some t ∧
    (inject_Z cadence_bpm <= t)%Q ∧ (t <= inject_Z (cadence_bpm + 9))%Q.
Proof.
  unfold within_band. split.
  - destruct (tempo_data !! track_id) as [metrics|]; [|discriminate].
    destruct (String.eqb (fetch_status metrics) "ok") eqn:Est; [|discriminate].
    simpl. destruct (tempo metrics) as [t|] eqn:Et; [|discriminate].
    intros Hband. apply andb_true_iff in Hband as [Hlo Hhi].
    apply Qle_bool_iff in Hlo, Hhi. apply String.eqb_eq in Est.
    exists metrics, t. auto.
  - intros (metrics & t & -> & Est & -> & Hlo & Hhi).
    rewrite Est. simpl. apply andb_true_iff.
    split; apply Qle_bool_iff; assumption.
Qed.

(** C5. The filter keeps a track identity exactly when the map has an entry
    for it whose status is [ok] and whose tempo is present and lies between
    the cadence and the cadence plus 9, both ends included; at cadence 160
    tempos 160 and 169 are kept, 159.9 and 169.1 are not, and an absent entry,
    a [no_data] entry and a null tempo are dropped and the filter still
    returns. *)
Theorem filter_tracks_by_tempo_spec (track_ids : list string)
    (tempo_data : gmap string feature_row) (cadence_bpm : Z) :
  (∀ track_id,
     In track_id (filter_tracks_by_tempo track_ids tempo_data cadence_bpm) ↔
     In track_id track_ids ∧
     ∃ metrics t,
       tempo_data !! track_id = Some metrics ∧
       fetch_status metrics = "ok" ∧
       tempo metrics = Some t ∧
       (inject_Z cadence_bpm <= t)%Q ∧ (t <= inject_Z (cadence_bpm + 9))%Q) ∧
  filter_tracks_by_tempo
    ["t159_9"; "t160"; "absent"; "nodata"; "t169"; "null"; "t169_1"]
    band_sample 160 = ["t160"; "t169"].
Proof.
  split.
  - intros track_id. unfold filter_tracks_by_tempo.
    rewrite filter_In, within_band_true. reflexivity.
  - vm_compute. reflexivity.
Qed.

(** ** The track-feature table *)

Lemma save_track_feature_unfold `{Runtime} (now : Z) (db0 : database) (obj : json) :
  save_track_feature now db0 obj =
  match identity_of obj with
  | None => db0
  | Some sid => upsert_track_feature sid (ok_row now obj) db0
  end.
Proof. reflexivity. Qed.

Lemma save_track_features_snoc `{Runtime} (now : Z) (objs : list json)
    (obj : json) (db0 : database) :
  save_track_features now (objs ++ [obj]) db0 =
  save_track_feature now (save_track_features now objs db0) obj.
Proof. unfold save_track_features. rewrite fold_left_app. reflexivity. Qed.

Lemma save_track_features_app `{Runtime} (now : Z) (l1 l2 : list json)
    (db0 : database) :
  save_track_features now (l1 ++ l2) db0 =
  save_track_features now l2 (save_track_features now l1 db0).
Proof. unfold save_track_features. apply fold_left_app. Qed.

Lemma save_track_feature_lookup `{Runtime} (now : Z) (db0 : database)
    (obj : json) (k : string) :
  track_features (save_track_feature now db0 obj) !! k =
  if decide (identity_of obj = Some k) then Some (ok_row now obj)
  else track_features db0 !! k.
Proof.
  rewrite save_track_feature_unfold.
  destruct (identity_of obj) as [sid|] eqn:E.
  - simpl. case_decide as Hk.
    + injection Hk as ->. apply lookup_insert_eq.
    + apply lookup_insert_ne. congruence.
  - case_decide; [discriminate | reflexivity].
Qed.

(** Records that do not carry the identity [k] leave its row alone. *)
Lemma save_track_features_other `{Runtime} (now : Z) (objs : list json)
    (db0 : database) (k : string) :
  (∀ obj, In obj objs → identity_of obj ≠ Some k) →
  track_features (save_track_features now objs db0) !! k =
  track_features db0 !! k.
Proof.
  revert db0. induction objs as [|obj objs IH]; intros db0 Hnone; [reflexivity|].
  change (save_track_features now (obj :: objs) db0)
    with (save_track_features now objs (save_track_feature now db0 obj)).
  rewrite IH by (intros o Ho; apply Hnone; right; exact Ho).
  rewrite save_track_feature_lookup. case_decide as Hk; [|reflexivity].
  exfalso. exact (Hnone obj (or_introl eq_refl) Hk).
Qed.

(** An identity some record carries is stored with the row of the last such
    record. *)
Lemma save_track_features_returned `{Runtime} (now : Z) (objs : list json)
    (db0 : database) (k : string) :
  In k (href_ids objs) →
  ∃ obj, In obj objs ∧ identity_of obj = Some k ∧
         track_features (save_track_features now objs db0) !! k =
         Some (ok_row now obj).
Proof.
  induction objs as [|obj objs IH] using rev_ind; [intros []|].
  intros Hin. rewrite save_track_features_snoc, save_track_feature_lookup.
  case_decide as Hk.
  - exists obj. split; [apply in_or_app; right; left; reflexivity|]. auto.
  - unfold href_ids in Hin. rewrite omap_app in Hin.
    apply in_app_or in Hin as [Hin|Hin].
    + destruct (IH Hin) as (o & Ho & Hid & Hrow).
      exists o. split; [apply in_or_app; left; exact Ho|]. auto.
    + simpl in Hin. fold (identity_of obj) in Hin.
      destruct (identity_of obj) as [sid|]; simpl in Hin; [|destruct Hin].
      destruct Hin as [->|[]]. congruence.
Qed.

Lemma href_ids_in (objs : list json) (k : string) :
  In k (href_ids objs) ↔ ∃ obj, In obj objs ∧ identity_of obj = Some k.
Proof.
  unfold href_ids. rewrite <- list_elem_of_In, list_elem_of_omap.
  split; intros (obj & Ho & Hid); exists obj;
    [rewrite <- list_elem_of_In | rewrite list_elem_of_In]; auto.
Qed.

Lemma mark_tracks_no_data_lookup `{Runtime} (now : Z) (ids : list string)
    (db0 : database) (k : string) :
  track_features (mark_tracks_no_data now ids db0) !! k =
  if decide (k ∈ ids) then Some (no_data_row now)
  else track_features db0 !! k.
Proof.
  revert db0. induction ids as [|i ids IH]; intros db0.
  - rewrite decide_False by apply not_elem_of_nil. reflexivity.
  - change (mark_tracks_no_data now (i :: ids) db0)
      with (mark_tracks_no_data now ids (mark_track_no_data now db0 i)).
    rewrite IH. case_decide as Hk.
    + rewrite decide_True by (right; exact Hk). reflexivity.
    + simpl. destruct (decide (i = k)) as [->|Hne].
      * rewrite decide_True by left. apply lookup_insert_eq.
      * rewrite decide_False
          by (intros Hin; apply elem_of_cons in Hin as [?|?]; congruence).
        apply lookup_insert_ne. exact Hne.
Qed.

Lemma load_track_features_lookup (db0 : database) (ids : list string) (k : string) :
  load_track_features db0 ids !! k =
  if decide (k ∈ ids) then track_features db0 !! k else None.
Proof.
  unfold load_track_features. destruct ids as [|i ids].
  - rewrite lookup_empty. rewrite decide_False by apply not_elem_of_nil.
    reflexivity.
  - set (l := i :: ids). case_decide as Hk.
    + destruct (track_features db0 !! k) as [row|] eqn:E.
      * apply map_lookup_filter_Some. split; [exact E | exact Hk].
      * apply map_lookup_filter_None. left. exact E.
    + apply map_lookup_filter_None. right. intros row _ Hin.
      exact (Hk Hin).
Qed.

Lemma ok_row_invariant `{Runtime} (now : Z) (obj : json) :
  feature_invariant (ok_row now obj).
Proof. split; [reflexivity | discriminate]. Qed.

Lemma no_data_row_invariant `{Runtime} (now : Z) :
  feature_invariant (no_data_row now).
Proof.
  split; [intros [q Hq]; discriminate | intros _; split; reflexivity].
Qed.

Lemma save_track_features_invariant `{Runtime} (now : Z) (objs : list json)
    (db0 : database) :
  features_invariant db0 → features_invariant (save_track_features now objs db0).
Proof.
  revert db0. induction objs as [|obj objs IH]; intros db0 Hinv; [exact Hinv|].
  apply (IH (save_track_feature now db0 obj)).
  intros k row. rewrite save_track_feature_lookup.
  case_decide; [intros [= <-]; apply ok_row_invariant | apply Hinv].
Qed.

Lemma mark_tracks_no_data_invariant `{Runtime} (now : Z) (ids : list string)
    (db0 : database) :
  features_invariant db0 → features_invariant (mark_tracks_no_data now ids db0).
Proof.
  intros Hinv k row. rewrite mark_tracks_no_data_lookup.
  case_decide; [intros [= <-]; apply no_data_row_invariant | apply Hinv].
Qed.

Lemma reachable_invariant `{Runtime} (db0 : database) :
  reachable db0 → features_invariant db0.
Proof.
  induction 1 as [| | | now objs db0 _ IH | now ids db0 _ IH | |];
    try assumption.
  - intros k row. simpl. rewrite lookup_empty. discriminate.
  - apply save_track_features_invariant, IH.
  - apply mark_tracks_no_data_invariant, IH.
Qed.

Lemma save_track_features_written `{Runtime} (now : Z) (objs : list json)
    (db0 : database) (k : string) (row : feature_row) :
  track_features (save_track_features now objs db0) !! k = Some row →
  track_features db0 !! k = Some row ∨
  ∃ obj, In obj objs ∧ identity_of obj = Some k ∧ row = ok_row now obj.
Proof.
  destruct (decide (k ∈ href_ids objs)) as [Hin|Hout].
  - apply list_elem_of_In in Hin.
    destruct (save_track_features_returned now objs db0 k Hin)
      as (obj & Ho & Hid & ->).
    intros [= <-]. right. exists obj. auto.
  - rewrite save_track_features_other; [auto|].
    intros obj Ho Hid. apply Hout, list_elem_of_In, href_ids_in. eauto.
Qed.

(** C8. Every record that can be read from a store built by the write
    operations of the cache satisfies: a tempo implies status [ok], and
    status [no_data] implies neither tempo nor raw features.  Saving feature
    records keeps the invariant and every row it writes has status [ok];
    marking identities keeps it and every row it writes has status [no_data]
    with no tempo and no features. *)
Theorem track_feature_invariant `{Runtime} (db0 : database)
    (Hreach : reachable db0) :
  (∀ ids k row,
     load_track_features db0 ids !! k = Some row → feature_invariant row) ∧
  (∀ now objs,
     features_invariant (save_track_features now objs db0) ∧
     ∀ k row,
       track_features (save_track_features now objs db0) !! k = Some row →
       track_features db0 !! k = Some row ∨ fetch_status row = "ok") ∧
  (∀ now ids,
     features_invariant (mark_tracks_no_data now ids db0) ∧
     ∀ k row,
       track_features (mark_tracks_no_data now ids db0) !! k = Some row →
       track_features db0 !! k = Some row ∨
       (fetch_status row = "no_data" ∧ tempo row = None ∧
        features_json row = None)).
Proof.
  pose proof (reachable_invariant db0 Hreach) as Hinv.
  split; [|split].
  - intros ids k row. rewrite load_track_features_lookup.
    case_decide; [apply Hinv | discriminate].
  - intros now objs. split; [apply save_track_features_invariant, Hinv|].
    intros k row Hrow.
    destruct (save_track_features_written now objs db0 k row Hrow)
      as [Hold|(obj & _ & _ & ->)]; [left; exact Hold | right; reflexivity].
  - intros now ids. split; [apply mark_tracks_no_data_invariant, Hinv|].
    intros k row. rewrite mark_tracks_no_data_lookup.
    case_decide; [intros [= <-]; right; repeat split | left; assumption].
Qed.

Lemma track_feature_invariant_witness :
  let db0 :=
    @mark_tracks_no_data decimal_runtime 7 ["t9"]
      (@save_track_features decimal_runtime 5 [bad_tempo_record] init_db) in
  @reachable decimal_runtime db0 ∧
  track_features db0 !! "t9" =
    Some (mk_feature None None "7" "no_data") ∧
  ∀ ids k row,
    load_track_features db0 ids !! k = Some row → feature_invariant row.
Proof.
  intros db0.
  assert (Hreach : @reachable decimal_runtime db0)
    by (apply reach_no_data, reach_features, reach_init).
  split; [exact Hreach|]. split; [vm_compute; reflexivity|].
  exact (proj1 (@track_feature_invariant decimal_runtime db0 Hreach)).
Defined.

(** ** The chunks *)







(** ** The reconciler *)



Lemma no_data_ids_of_In (chunk : list string) (returned : list string)
    (k : string) :
  In k (no_data_ids_of chunk (list_to_set returned)) ↔
  In k chunk ∧ ¬ In k returned.
Proof.
  unfold no_data_ids_of. rewrite filter_In, bool_decide_eq_true.
  rewrite elem_of_list_to_set, list_elem_of_In. reflexivity.
Qed.

(** What a chunk whose answer carries a list of records does to the
    store. *)
Lemma reconcile_chunk_db `{Runtime} (rb : upstream) (now : Z) (w : world)
    (chunk : list string) (payload : json) (content : list json) :
  reccobeats rb (log w) (chunk_request chunk) = Returned payload →
  as_list (content_of payload) = Some content →
  db (reconcile_chunk rb now w chunk) =
  mark_tracks_no_data now
    (no_data_ids_of chunk (list_to_set (href_ids content)))
    (save_track_features now content (db w)).
Proof.
  intros Hreply Hcontent. unfold reconcile_chunk. fold (chunk_request chunk).
  rewrite Hreply, Hcontent. simpl.
  destruct (no_data_ids_of chunk _); reflexivity.
Qed.

Lemma reconcile_chunk_lookup `{Runtime} (rb : upstream) (now : Z) (w : world)
    (chunk : list string) (payload : json) (content : list json) (k : string) :
  reccobeats rb (log w) (chunk_request chunk) = Returned payload →
  as_list (content_of payload) = Some content →
  track_features (db (reconcile_chunk rb now w chunk)) !! k =
  if decide (k ∈ href_ids content)
  then track_features (save_track_features now content (db w)) !! k
  else if decide (k ∈ chunk) then Some (no_data_row now)
       else track_features (db w) !! k.
Proof.
  intros Hreply Hcontent.
  rewrite (reconcile_chunk_db rb now w chunk payload content Hreply Hcontent).
  rewrite mark_tracks_no_data_lookup.
  destruct (decide (k ∈ href_ids content)) as [Hret|Hret].
  - rewrite decide_False; [reflexivity|].
    intros Hin. apply list_elem_of_In, no_data_ids_of_In in Hin as [_ Hnr].
    apply Hnr, list_elem_of_In, Hret.
  - destruct (decide (k ∈ chunk)) as [Hc|Hc].
    + rewrite decide_True; [reflexivity|].
      apply list_elem_of_In, no_data_ids_of_In.
      split; [apply list_elem_of_In, Hc|].
      intros Hin. apply Hret, list_elem_of_In, Hin.
    + rewrite decide_False.
      * apply save_track_features_other. intros obj Ho Hid.
        apply Hret, list_elem_of_In, href_ids_in. eauto.
      * intros Hin. apply list_elem_of_In, no_data_ids_of_In in Hin as [Hin _].
        apply Hc, list_elem_of_In, Hin.
Qed.

Lemma reconcile_chunk_failed `{Runtime} (rb : upstream) (now : Z) (w : world)
    (chunk : list string) :
  reccobeats rb (log w) (chunk_request chunk) = Raised →
  db (reconcile_chunk rb now w chunk) = db w.
Proof.
  intros Hreply. unfold reconcile_chunk. fold (chunk_request chunk).
  rewrite Hreply. reflexivity.
Qed.

Lemma reconcile_chunk_no_list `{Runtime} (rb : upstream) (now : Z) (w : world)
    (chunk : list string) (payload : json) :
  reccobeats rb (log w) (chunk_request chunk) = Returned payload →
  as_list (content_of payload) = None →
  db (reconcile_chunk rb now w chunk) = db w.
Proof.
  intros Hreply Hcontent. unfold reconcile_chunk. fold (chunk_request chunk).
  rewrite Hreply, Hcontent. reflexivity.
Qed.

(** A turn of the loop leaves alone every row it does not write. *)
Lemma reconcile_chunk_frame `{Runtime} (rb : upstream) (now : Z) (w : world)
    (chunk : list string) (k : string) :
  ¬ In k (writes_of rb w chunk) →
  track_features (db (reconcile_chunk rb now w chunk)) !! k =
  track_features (db w) !! k.
Proof.
  unfold writes_of.
  destruct (reccobeats rb (log w) (chunk_request chunk)) as [payload|] eqn:Hreply.
  - destruct (as_list (content_of payload)) as [content|] eqn:Hcontent.
    + intros Hout.
      rewrite (reconcile_chunk_lookup rb now w chunk payload content k Hreply Hcontent).
      rewrite decide_False
        by (rewrite list_elem_of_In; intros ?; apply Hout, in_or_app; auto).
      rewrite decide_False; [reflexivity|].
      rewrite list_elem_of_In. intros Hc. apply Hout, in_or_app. right.
      apply no_data_ids_of_In. split; [exact Hc|].
      intros ?. apply Hout, in_or_app. auto.
    + intros _. rewrite (reconcile_chunk_no_list rb now w chunk payload); auto.
  - intros _. rewrite (reconcile_chunk_failed rb now w chunk); auto.
Qed.

Lemma reconcile_chunks_frame `{Runtime} (rb : upstream) (now : Z)
    (cs : list (list string)) (w : world) (k : string) :
  (∀ a1 c a2, cs = a1 ++ c :: a2 →
     ¬ In k (writes_of rb (fold_left (reconcile_chunk rb now) a1 w) c)) →
  track_features (db (fold_left (reconcile_chunk rb now) cs w)) !! k =
  track_features (db w) !! k.
Proof.
  revert w. induction cs as [|c cs IH]; intros w Hout; [reflexivity|].
  simpl. rewrite IH.
  - apply reconcile_chunk_frame. exact (Hout [] c cs eq_refl).
  - intros a1 c' a2 ->. exact (Hout (c :: a1) c' a2 eq_refl).
Qed.





(** ** Fetch or reuse *)


Lemma usable_absent_or_stale `{Runtime} (now : Z) (cached : option snapshot_row) :
  absent_or_stale now cached → usable now cached = None.
Proof.
  intros [->|(c & -> & E)]; [reflexivity|]. unfold usable. rewrite E. reflexivity.
Qed.

Lemma is_stale_later `{Runtime} (now now' : Z) (s : string) (days : Z) :
  (now ≤ now')%Z → is_stale now (inl s) days = true →
  is_stale now' (inl s) days = true.
Proof.
  intros Hle. rewrite !is_stale_string.
  destruct (fromisoformat s) as [d|]; [|reflexivity].
  rewrite !is_stale_datetime. lia.
Qed.

Lemma absent_or_stale_later `{Runtime} (now now' : Z)
    (cached : option snapshot_row) :
  (now ≤ now')%Z → absent_or_stale now cached → absent_or_stale now' cached.
Proof.
  intros Hle [->|(c & -> & E)]; [left; reflexivity|].
  right. exists c. split; [reflexivity|]. exact (is_stale_later _ _ _ _ Hle E).
Qed.

(** More fuel does not change a pagination that ended. *)
Lemma collect_saved_tracks_more_fuel (fuel extra : nat) (sp : upstream)
    (limit offset : Z) (tracks : list json) (lg : list request)
    (e : loop_end) (t : list json) (l : list request) :
  collect_saved_tracks fuel sp limit offset tracks lg = (e, t, l) →
  e ≠ OutOfFuel →
  collect_saved_tracks (fuel + extra) sp limit offset tracks lg = (e, t, l).
Proof.
  revert offset tracks lg. induction fuel as [|fuel IH]; intros offset tracks lg.
  - simpl. intros [= <- _ _] Hne. congruence.
  - simpl. destruct (spotify sp lg _) as [response|]; [|auto].
    destruct (negb (truthy _)); [auto|].
    destruct (_ <? limit)%Z; [auto|]. apply IH.
Qed.



Lemma collect_saved_tracks_S (fuel : nat) (sp : upstream) (limit offset : Z)
    (tracks : list json) (lg : list request) :
  collect_saved_tracks (S fuel) sp limit offset tracks lg =
  let req := CurrentUserSavedTracks limit offset in
  match spotify sp lg req with
  | Raised => (Failed, tracks, lg ++ [req])
  | Returned response =>
      let items := get_default "items" (JList []) response in
      if negb (truthy items) then (Completed, tracks, lg ++ [req])
      else
        let tracks := tracks ++ page_tracks (elements_of items) in
        let len_items := Z.of_nat (length (elements_of items)) in
        let offset := (offset + len_items)%Z in
        if (len_items <? limit)%Z then (Completed, tracks, lg ++ [req])
        else collect_saved_tracks fuel sp limit offset tracks (lg ++ [req])
  end.
Proof. reflexivity. Qed.

Lemma page_tracks_app (l1 l2 : list json) :
  page_tracks (l1 ++ l2) = page_tracks l1 ++ page_tracks l2.
Proof. unfold page_tracks. apply omap_app. Qed.

Lemma collect_saved_tracks_failed (sp : upstream) (limit : Z)
    (pages : list (list json)) :
  ∀ fuel offset tracks lg,
    reads_pages sp limit offset lg pages →
    (length pages < fuel)%nat →
    collect_saved_tracks fuel sp limit offset tracks lg =
      (Failed, tracks ++ page_tracks (concat pages),
       lg ++ saved_requests limit offset pages).
Proof.
  induction pages as [|page rest IH]; intros fuel offset tracks lg Hreads Hfuel;
    (destruct fuel as [|fuel]; [simpl in Hfuel; lia|]);
    rewrite collect_saved_tracks_S; cbv zeta.
  - simpl in Hreads. rewrite Hreads. simpl. rewrite app_nil_r. reflexivity.
  - destruct Hreads as ((kv & Hreply & Hitems) & Hne & Hfull & _ & Hrest).
    rewrite Hreply, Hitems.
    destruct page as [|item page]; [congruence|].
    cbn [truthy negb elements_of as_list]. cbv iota.
    apply Z.ltb_ge in Hfull. rewrite Hfull.
    rewrite (IH fuel _ _ _ Hrest) by (simpl in Hfuel; lia).
    cbn [concat saved_requests]. rewrite page_tracks_app.
    rewrite <- !app_assoc. reflexivity.
Qed.

(** C1, as the code has it. When the record of a key is absent or stale and
    the upstream call signals its error, the top-tracks, top-artists and
    artist-top-tracks functions return the empty list, and the
    recommendation request adds no identity; the saved-tracks collector,
    when the catalog answers its requests with full pages of typed items and
    then with the error, returns exactly the tracks with a truthy [id] of
    the pages read before the failing request, in order (the empty list
    when the first request fails).  None of them writes to the store, so
    at every later clock the reuse test on the unchanged store fails again
    and the next call goes upstream, storing the payload when that call
    answers with an object. *)
Theorem failed_fetch_leaves_store `{Runtime} (now : Z) (w : world) :
  (∀ sp user_id limit,
     absent_or_stale now (load_user_spotify_data (db w) user_id "top_tracks") →
     let req := CurrentUserTopTracks limit "medium_term" in
     (spotify sp (log w) req = Raised →
      fetch_user_top_tracks sp now user_id limit w =
        (JList [], mk_world (db w) (log w ++ [req]))) ∧
     (∀ kv, spotify sp (log w) req = Returned (JObj kv) →
      let items := get_default "items" (JList []) (JObj kv) in
      fetch_user_top_tracks sp now user_id limit w =
        (items,
         mk_world (save_user_spotify_data now user_id "top_tracks" items (db w))
                  (log w ++ [req])))) ∧
  (∀ sp user_id limit,
     absent_or_stale now (load_user_spotify_data (db w) user_id "top_artists") →
     let req := CurrentUserTopArtists limit "medium_term" in
     (spotify sp (log w) req = Raised →
      fetch_user_top_artists sp now user_id limit w =
        (JList [], mk_world (db w) (log w ++ [req]))) ∧
     (∀ kv, spotify sp (log w) req = Returned (JObj kv) →
      let items := get_default "items" (JList []) (JObj kv) in
      fetch_user_top_artists sp now user_id limit w =
        (items,
         mk_world (save_user_spotify_data now user_id "top_artists" items (db w))
                  (log w ++ [req])))) ∧
  (∀ sp artist_id,
     absent_or_stale now (load_artist_top_tracks (db w) artist_id) →
     let req := ArtistTopTracks artist_id in
     (spotify sp (log w) req = Raised →
      fetch_artist_top_tracks sp now artist_id w =
        (JList [], mk_world (db w) (log w ++ [req]))) ∧
     (∀ kv, spotify sp (log w) req = Returned (JObj kv) →
      let tracks := get_default "tracks" (JList []) (JObj kv) in
      fetch_artist_top_tracks sp now artist_id w =
        (tracks,
         mk_world (save_artist_top_tracks now artist_id tracks (db w))
                  (log w ++ [req])))) ∧
  (∀ sp user_id limit,
     absent_or_stale now (load_user_spotify_data (db w) user_id "saved_tracks") →
     (∀ pages fuel,
        reads_pages sp limit 0 (log w) pages →
        (length pages < fuel)%nat →
        fetch_user_saved_tracks fuel sp now user_id limit w =
          Some (JList (page_tracks (concat pages)),
                mk_world (db w) (log w ++ saved_requests limit 0 pages))) ∧
     (∀ fuel tracks lg,
        collect_saved_tracks fuel sp limit 0 [] (log w) = (Failed, tracks, lg) →
        ∀ extra,
          fetch_user_saved_tracks (fuel + extra) sp now user_id limit w =
            Some (JList tracks, mk_world (db w) lg)) ∧
     (spotify sp (log w) (CurrentUserSavedTracks limit 0) = Raised →
      ∀ fuel,
        fetch_user_saved_tracks (S fuel) sp now user_id limit w =
          Some (JList [],
                mk_world (db w) (log w ++ [CurrentUserSavedTracks limit 0]))) ∧
     (∀ fuel tracks lg,
        collect_saved_tracks fuel sp limit 0 [] (log w) = (Completed, tracks, lg) →
        fetch_user_saved_tracks fuel sp now user_id limit w =
          Some (JList tracks,
                mk_world
                  (save_user_spotify_data now user_id "saved_tracks"
                     (JList tracks) (db w))
                  lg))) ∧
  (∀ rb size track_id similar_ids,
     reccobeats rb (log w) (Recommendation size track_id) = Raised →
     request_recommendations rb now size track_id similar_ids w =
       (similar_ids,
        mk_world (db w) (log w ++ [Recommendation size track_id]))) ∧
  (∀ now' lg,
     (now ≤ now')%Z →
     let w' := mk_world (db w) lg in
     (∀ user_id data_key,
        absent_or_stale now (load_user_spotify_data (db w) user_id data_key) →
        usable now' (load_user_spotify_data (db w') user_id data_key) = None) ∧
     (∀ artist_id,
        absent_or_stale now (load_artist_top_tracks (db w) artist_id) →
        usable now' (load_artist_top_tracks (db w') artist_id) = None) ∧
     (∀ track_id,
        absent_or_stale now (load_reccobeats_recommendations (db w) track_id) →
        usable now' (load_reccobeats_recommendations (db w') track_id) = None)).
Proof.
  split; [|split; [|split; [|split; [|split]]]].
  - intros sp user_id limit Hstale req. apply usable_absent_or_stale in Hstale.
    unfold fetch_user_top_tracks. rewrite Hstale. fold req.
    split; [intros -> | intros kv ->]; reflexivity.
  - intros sp user_id limit Hstale req. apply usable_absent_or_stale in Hstale.
    unfold fetch_user_top_artists. rewrite Hstale. fold req.
    split; [intros -> | intros kv ->]; reflexivity.
  - intros sp artist_id Hstale req. apply usable_absent_or_stale in Hstale.
    unfold fetch_artist_top_tracks. rewrite Hstale. fold req.
    split; [intros -> | intros kv ->]; reflexivity.
  - intros sp user_id limit Hstale. apply usable_absent_or_stale in Hstale.
    unfold fetch_user_saved_tracks. rewrite Hstale. split; [|split; [|split]].
    + intros pages fuel Hreads Hfuel.
      rewrite (collect_saved_tracks_failed sp limit pages fuel 0 [] (log w)
                 Hreads Hfuel).
      reflexivity.
    + intros fuel tracks lg Hloop extra.
      rewrite (collect_saved_tracks_more_fuel fuel extra _ _ _ _ _ _ _ _ Hloop)
        by discriminate.
      reflexivity.
    + intros Hreply fuel. simpl. rewrite Hreply. reflexivity.
    + intros fuel tracks lg ->. reflexivity.
  - intros rb size track_id similar_ids Hreply.
    unfold request_recommendations. rewrite Hreply. reflexivity.
  - intros now' lg Hle w'. simpl.
    split; [|split]; intros; apply usable_absent_or_stale;
      apply (absent_or_stale_later now now' _ Hle); assumption.
Qed.

Lemma failed_fetch_leaves_store_witness :
  @absent_or_stale decimal_runtime (31 * day)
    (load_user_spotify_data (db cached_world) "u" "top_tracks") ∧
  @fetch_user_top_tracks decimal_runtime failing_upstream (31 * day) "u" 50
    cached_world =
    (JList [],
     mk_world (db cached_world) [CurrentUserTopTracks 50 "medium_term"]) ∧
  reads_pages third_page_fails 2 0 [] [first_saved_page; second_saved_page] ∧
  @fetch_user_saved_tracks decimal_runtime 3 third_page_fails 0 "u" 2
    fresh_world =
    Some (JList [saved_track_t1; saved_track_t2; saved_track_t3],
          mk_world init_db
            [CurrentUserSavedTracks 2 0; CurrentUserSavedTracks 2 2;
             CurrentUserSavedTracks 2 4]) ∧
  @fetch_user_saved_tracks decimal_runtime (2 + 0) second_page_fails 0 "u" 1
    fresh_world =
    Some (JList [saved_track_t1],
          mk_world init_db
            [CurrentUserSavedTracks 1 0; CurrentUserSavedTracks 1 1]).
Proof.
  assert (Hstale : @absent_or_stale decimal_runtime (31 * day)
            (load_user_spotify_data (db cached_world) "u" "top_tracks")).
  { right. eexists. split; [vm_compute; reflexivity|]. vm_compute. reflexivity. }
  assert (Hreads : reads_pages third_page_fails 2 0 []
                     [first_saved_page; second_saved_page]).
  { split; [exists [("items", JList first_saved_page)]; split; reflexivity|].
    split; [discriminate|]. split; [simpl; lia|].
    split; [repeat constructor|].
    split; [exists [("items", JList second_saved_page)]; split; reflexivity|].
    split; [discriminate|]. split; [simpl; lia|].
    split; [repeat constructor|]. reflexivity. }
  split; [exact Hstale|].
  pose proof (@failed_fetch_leaves_store decimal_runtime (31 * day) cached_world)
    as (Htop & _).
  pose proof (@failed_fetch_leaves_store decimal_runtime 0 fresh_world)
    as (_ & _ & _ & Hsaved & _).
  destruct (Hsaved third_page_fails "u" 2%Z (or_introl eq_refl))
    as (Hpages & _).
  destruct (Hsaved second_page_fails "u" 1%Z (or_introl eq_refl))
    as (_ & Hloop & _).
  split; [|split; [exact Hreads|split]].
  - exact (proj1 (Htop failing_upstream "u" 50%Z Hstale) eq_refl).
  - exact (Hpages [first_saved_page; second_saved_page] 3%nat Hreads
             (le_n 3)).
  - refine (Hloop 2%nat _ _ _ 0%nat). vm_compute. reflexivity.
Defined.

(** C1, counterexample to the claim as worded: the second page of saved
    tracks fails, and the collector returns the track of the first page, not
    an empty payload; the store is not written. *)
Lemma fetch_user_saved_tracks_partial :
  spotify second_page_fails [CurrentUserSavedTracks 1 0]
    (CurrentUserSavedTracks 1 1) = Raised ∧
  ∃ w',
    @fetch_user_saved_tracks decimal_runtime 2 second_page_fails 0 "u" 1
      fresh_world = Some (JList [saved_track_t1], w') ∧
    JList [saved_track_t1] ≠ JList [] ∧
    db w' = db fresh_world.
Proof.
  split; [reflexivity|]. eexists. split; [vm_compute; reflexivity|].
  split; [discriminate | reflexivity].
Qed.

(** * Further properties of the store *)



(** X3. [load_reccobeats_recommendations] after
    [save_reccobeats_recommendations] returns the saved list with its length
    as count; other seeds read as before; a later save for the seed
    supersedes the earlier one entirely. *)
Theorem save_reccobeats_recommendations_round_trip `{Runtime} (now now' : Z)
    (seed : string) (recs recs' : list json) (db0 : database) :
  load_reccobeats_recommendations
    (save_reccobeats_recommendations now seed recs db0) seed =
    Some (mk_snapshot (JList recs) (Z.of_nat (length recs))
            (CURRENT_TIMESTAMP now)) ∧
  (∀ seed', seed' ≠ seed →
     load_reccobeats_recommendations
       (save_reccobeats_recommendations now seed recs db0) seed' =
     load_reccobeats_recommendations db0 seed') ∧
  save_reccobeats_recommendations now' seed recs'
    (save_reccobeats_recommendations now seed recs db0) =
  save_reccobeats_recommendations now' seed recs' db0.
Proof.
  unfold load_reccobeats_recommendations, save_reccobeats_recommendations.
  simpl. split; [|split].
  - apply lookup_insert_eq.
  - intros seed' Hne. apply lookup_insert_ne. congruence.
  - rewrite insert_insert_eq. reflexivity.
Qed.

(** X4. [load_user_combined_tracks] after [save_user_combined_tracks]
    returns the saved identities in the saved order, and the stored count is
    their number; a user with no row loads as absent, other users read as
    before, and a later save supersedes the earlier one entirely. *)
Theorem save_user_combined_tracks_round_trip `{Runtime} (now now' : Z)
    (user_id : string) (ids ids' : list string) (db0 : database) :
  load_user_combined_tracks (save_user_combined_tracks now user_id ids db0)
    user_id = Some ids ∧
  (combined_count <$>
     user_combined_tracks (save_user_combined_tracks now user_id ids db0)
       !! user_id) = Some (Z.of_nat (length ids)) ∧
  (∀ user_id', user_id' ≠ user_id →
     load_user_combined_tracks (save_user_combined_tracks now user_id ids db0)
       user_id' = load_user_combined_tracks db0 user_id') ∧
  (∀ user_id', user_combined_tracks db0 !! user_id' = None →
     load_user_combined_tracks db0 user_id' = None) ∧
  save_user_combined_tracks now' user_id ids'
    (save_user_combined_tracks now user_id ids db0) =
  save_user_combined_tracks now' user_id ids' db0.
Proof.
  unfold load_user_combined_tracks, save_user_combined_tracks. simpl.
  split; [|split; [|split; [|split]]].
  - rewrite lookup_insert_eq. reflexivity.
  - rewrite lookup_insert_eq. reflexivity.
  - intros user_id' Hne. rewrite lookup_insert_ne by congruence. reflexivity.
  - intros user_id' ->. reflexivity.
  - rewrite insert_insert_eq. reflexivity.
Qed.

Lemma save_track_features_tables `{Runtime} (now : Z) (objs : list json)
    (db0 : database) :
  same_outside_features (save_track_features now objs db0) db0.
Proof.
  revert db0. induction objs as [|obj objs IH]; intros db0.
  - repeat split.
  - change (save_track_features now (obj :: objs) db0)
      with (save_track_features now objs (save_track_feature now db0 obj)).
    destruct (IH (save_track_feature now db0 obj)) as (E1 & E2 & E3 & E4).
    unfold same_outside_features. rewrite E1, E2, E3, E4.
    rewrite save_track_feature_unfold.
    destruct (identity_of obj); repeat split.
Qed.

Lemma mark_tracks_no_data_tables `{Runtime} (now : Z) (ids : list string)
    (db0 : database) :
  same_outside_features (mark_tracks_no_data now ids db0) db0.
Proof.
  revert db0. induction ids as [|i ids IH]; intros db0.
  - repeat split.
  - change (mark_tracks_no_data now (i :: ids) db0)
      with (mark_tracks_no_data now ids (mark_track_no_data now db0 i)).
    destruct (IH (mark_track_no_data now db0 i)) as (E1 & E2 & E3 & E4).
    unfold same_outside_features. rewrite E1, E2, E3, E4.
    repeat split.
Qed.

(** X5. Every write operation of the cache changes its own table only:
    saving or marking track features leaves the four other tables as they
    were, and saving user data, artist tracks, recommendations or combined
    tracks leaves the track features (and each other's tables) as they
    were. *)
Theorem writes_stay_in_their_table `{Runtime} (now : Z) (db0 : database) :
  (∀ objs, same_outside_features (save_track_features now objs db0) db0) ∧
  (∀ ids, same_outside_features (mark_tracks_no_data now ids db0) db0) ∧
  (∀ user_id data_key p,
     let d := save_user_spotify_data now user_id data_key p db0 in
     track_features d = track_features db0 ∧
     artist_top_tracks d = artist_top_tracks db0 ∧
     reccobeats_recommendations d = reccobeats_recommendations db0 ∧
     user_combined_tracks d = user_combined_tracks db0) ∧
  (∀ artist_id p,
     let d := save_artist_top_tracks now artist_id p db0 in
     track_features d = track_features db0 ∧
     user_spotify_data d = user_spotify_data db0 ∧
     reccobeats_recommendations d = reccobeats_recommendations db0 ∧
     user_combined_tracks d = user_combined_tracks db0) ∧
  (∀ seed recs,
     let d := save_reccobeats_recommendations now seed recs db0 in
     track_features d = track_features db0 ∧
     user_spotify_data d = user_spotify_data db0 ∧
     artist_top_tracks d = artist_top_tracks db0 ∧
     user_combined_tracks d = user_combined_tracks db0) ∧
  (∀ user_id ids,
     let d := save_user_combined_tracks now user_id ids db0 in
     track_features d = track_features db0 ∧
     user_spotify_data d = user_spotify_data db0 ∧
     artist_top_tracks d = artist_top_tracks db0 ∧
     reccobeats_recommendations d = reccobeats_recommendations db0).
Proof.
  split; [intros; apply save_track_features_tables|].
  split; [intros; apply mark_tracks_no_data_tables|].
  repeat split.
Qed.


(** * Further properties of the pipeline *)

(** ** Deduplication *)

Lemma snoc_decompose {A : Type} (done pre post : list A) (x t : A) :
  done ++ [x] = pre ++ t :: post →
  (post = [] ∧ pre = done ∧ t = x) ∨
  ∃ post', post = post' ++ [x] ∧ done = pre ++ t :: post'.
Proof.
  destruct post as [|y post' _] using rev_ind.
  - intros Heq. apply app_inj_tail in Heq as [-> ->]. left. auto.
  - intros Heq. right. exists post'.
    change (pre ++ t :: post' ++ [y]) with (pre ++ (t :: post') ++ [y]) in Heq.
    rewrite app_assoc in Heq. apply app_inj_tail in Heq as [-> ->]. auto.
Qed.

Lemma dedupe_seen_tracks (done : list json) (seen : list (string * json))
    (k : string) :
  dedupe_invariant done seen → k ∈ seen.*1 →
  ∃ track, In track done ∧ track_id_of track = Some k.
Proof.
  intros (Hids & _ & Hsub & _) Hk.
  apply list_elem_of_fmap in Hk as ([k' track] & -> & Hin).
  exists track. split.
  - apply list_elem_of_In. eapply sublist_submseteq in Hsub.
    eapply elem_of_submseteq; [|exact Hsub].
    apply list_elem_of_fmap. exists (k', track). auto.
  - rewrite List.Forall_forall in Hids.
    apply (Hids (k', track)), list_elem_of_In, Hin.
Qed.

Lemma dedupe_step_invariant (done : list json) (seen : list (string * json))
    (track : json) :
  dedupe_invariant done seen →
  dedupe_invariant (done ++ [track]) (dedupe_step seen track).
Proof.
  intros Hinv. pose proof Hinv as (Hids & Hnodup & Hsub & Hfirst).
  unfold dedupe_step. destruct (track_id_of track) as [k|] eqn:Ek.
  - case_bool_decide as Hseen.
    + split; [exact Hids|]. split; [exact Hnodup|].
      split; [apply sublist_inserts_r, Hsub|].
      intros pre t post k' Heq Hid Hpre.
      apply snoc_decompose in Heq as [(-> & -> & ->)|(post' & -> & ->)].
      * exfalso. assert (k' = k) as -> by congruence.
        destruct (dedupe_seen_tracks done seen k Hinv Hseen) as (t' & Hin & Hid').
        exact (Hpre t' Hin Hid').
      * eapply Hfirst; eauto.
    + split; [apply Forall_app; split; [exact Hids|]; repeat constructor; exact Ek|].
      split.
      { rewrite fmap_app. apply NoDup_app. split; [exact Hnodup|].
        split; [|apply NoDup_singleton].
        intros x Hx Hx'. apply list_elem_of_singleton in Hx'. subst x.
        exact (Hseen Hx). }
      split; [rewrite fmap_app; apply sublist_app; [exact Hsub | reflexivity]|].
      intros pre t post k' Heq Hid Hpre. apply in_or_app.
      apply snoc_decompose in Heq as [(-> & -> & ->)|(post' & -> & ->)].
      * right. left. congruence.
      * left. eapply Hfirst; eauto.
  - split; [exact Hids|]. split; [exact Hnodup|].
    split; [apply sublist_inserts_r, Hsub|].
    intros pre t post k' Heq Hid Hpre.
    apply snoc_decompose in Heq as [(-> & -> & ->)|(post' & -> & ->)].
    + congruence.
    + eapply Hfirst; eauto.
Qed.

Lemma dedupe_loop_invariant (tracks done : list json)
    (seen : list (string * json)) :
  dedupe_invariant done seen →
  dedupe_invariant (done ++ tracks) (fold_left dedupe_step tracks seen).
Proof.
  revert done seen. induction tracks as [|track tracks IH]; intros done seen Hinv.
  - rewrite app_nil_r. exact Hinv.
  - simpl. replace (done ++ track :: tracks) with ((done ++ [track]) ++ tracks)
      by (rewrite <- app_assoc; reflexivity).
    apply IH, dedupe_step_invariant, Hinv.
Qed.

Lemma dedupe_invariant_result (tracks : list json) :
  dedupe_invariant tracks (fold_left dedupe_step tracks []).
Proof.
  apply (dedupe_loop_invariant tracks [] []).
  split; [constructor|]. split; [constructor|]. split; [constructor|].
  intros pre t post k Heq. destruct pre; discriminate.
Qed.

Lemma dedupe_ids (seen : list (string * json)) :
  Forall (λ kt, track_id_of kt.2 = Some kt.1) seen →
  track_id_of <$> seen.*2 = Some <$> seen.*1.
Proof.
  induction 1 as [|[k t] seen Hk _ IH]; [reflexivity|].
  rewrite !fmap_cons. simpl in Hk. simpl. rewrite Hk, IH. reflexivity.
Qed.

Lemma dedupe_NoDup (tracks : list json) :
  NoDup (track_id_of <$> dedupe tracks).
Proof.
  destruct (dedupe_invariant_result tracks) as (Hids & Hnodup & _).
  unfold dedupe. rewrite (dedupe_ids _ Hids).
  apply NoDup_fmap_2; [intros x y [= ->]; reflexivity | exact Hnodup].
Qed.

Lemma track_typed_id (track : json) :
  track_typed track = true →
  (truthy (get "id" track) = false ∧ track_id_of track = None) ∨
  (∃ k, get "id" track = JStr k ∧ truthy (get "id" track) = true ∧
        track_id_of track = Some k).
Proof.
  unfold track_typed, track_id_of. destruct track as [| | | |l|kv]; try discriminate.
  destruct (get "id" (JObj kv)) as [|b|q|s|l|kv'] eqn:Eid; cbn [as_str];
    intros Htyped; try (apply negb_true_iff in Htyped; left; split;
                        [exact Htyped | reflexivity]).
  destruct s as [|c s].
  - left. split; reflexivity.
  - right. exists (String c s). repeat split; reflexivity.
Qed.

(** X8. On tracks that are objects whose [id] is a string or falsy, the
    identity [dedupe] reads is [track.get("id")] when that is truthy, and
    [dedupe] keeps, for every identity, the first track that carries it and
    nothing else: the tracks it returns all have an identity, no two share
    one, they appear in the order of the input, and the first track with a
    given identity is among them while a track without identity is not. *)
Theorem dedupe_spec (tracks : list json)
    (Htyped : Forall (λ track, track_typed track = true) tracks) :
  (∀ track, In track tracks →
     (truthy (get "id" track) = false ∧ track_id_of track = None) ∨
     (∃ k, get "id" track = JStr k ∧ truthy (get "id" track) = true ∧
           track_id_of track = Some k)) ∧
  NoDup (track_id_of <$> dedupe tracks) ∧
  (∀ track, In track (dedupe tracks) →
     In track tracks ∧ is_Some (track_id_of track)) ∧
  dedupe tracks `sublist_of` tracks ∧
  (∀ pre track post k,
     tracks = pre ++ track :: post →
     track_id_of track = Some k →
     (∀ o, In o pre → track_id_of o ≠ Some k) →
     In track (dedupe tracks)).
Proof.
  destruct (dedupe_invariant_result tracks) as (Hids & Hnodup & Hsub & Hfirst).
  split; [|split; [apply dedupe_NoDup|]; split; [|split; [exact Hsub|]]].
  - intros track Hin. apply track_typed_id.
    rewrite List.Forall_forall in Htyped. apply Htyped, Hin.
  - intros track Hin. unfold dedupe in Hin. split.
    + apply list_elem_of_In. eapply elem_of_submseteq;
        [apply list_elem_of_In, Hin | apply sublist_submseteq, Hsub].
    + apply list_elem_of_In, list_elem_of_fmap in Hin as ([k t] & -> & Hin).
      rewrite List.Forall_forall in Hids.
      apply list_elem_of_In in Hin. rewrite (Hids _ Hin). eexists. reflexivity.
  - intros pre track post k Heq Hid Hpre.
    pose proof (Hfirst pre track post k Heq Hid Hpre) as Hin.
    unfold dedupe. apply list_elem_of_In, list_elem_of_fmap.
    exists (k, track). split; [reflexivity | apply list_elem_of_In, Hin].
Qed.

Lemma dedupe_spec_witness :
  Forall (λ track, track_typed track = true) repeated_tracks ∧
  dedupe repeated_tracks = [JObj [("id", JStr "t1"); ("name", JStr "first")]] ∧
  In (JObj [("id", JStr "t1"); ("name", JStr "first")]) (dedupe repeated_tracks) ∧
  ¬ In (JObj [("name", JStr "nameless")]) (dedupe repeated_tracks).
Proof.
  assert (Htyped : Forall (λ track, track_typed track = true) repeated_tracks)
    by (repeat constructor).
  split; [exact Htyped|]. split; [vm_compute; reflexivity|].
  destruct (dedupe_spec repeated_tracks Htyped) as (_ & _ & Hin & _ & Hfirst).
  split.
  - exact (Hfirst [] _ _ "t1" eq_refl eq_refl (λ o Ho, match Ho with end)).
  - intros Hnameless. destruct (proj2 (Hin _ Hnameless)) as [k Hk].
    discriminate Hk.
Defined.

(** ** Pagination *)




(** ** Reuse after a successful fetch *)




(** ** Recommendations *)







(** * The feature writer and the chunk loop with their uncaught errors *)

Lemma well_formed_href (obj : json) :
  well_formed_record obj = true →
  Raising.member "href" obj = inr (get "href" obj) ∧
  Raising.extract_spotify_id_from_href (get "href" obj) = inr (identity_of obj).
Proof.
  unfold well_formed_record, identity_of.
  destruct obj as [| | | | |kv]; try discriminate.
  intros Hwf. apply andb_true_iff in Hwf as [Hhref _].
  split; [reflexivity|]. unfold Raising.extract_spotify_id_from_href.
  destruct (get "href" (JObj kv)) as [|b|q|s|l|kv'] eqn:E; simpl in *.
  - reflexivity.
  - destruct b; [discriminate | reflexivity].
  - destruct (Qeq_bool q 0); [reflexivity | discriminate].
  - destruct s; reflexivity.
  - destruct l; [reflexivity | discriminate].
  - destruct kv'; [reflexivity | discriminate].
Qed.

Lemma well_formed_tempo `{Runtime} `{Doubles} (obj : json) :
  well_formed_record obj = true →
  ∃ t, Raising.tempo_of (get "tempo" obj) = inr t.
Proof.
  unfold well_formed_record. destruct obj as [| | | | |kv]; try discriminate.
  intros Hwf. apply andb_true_iff in Hwf as [_ Htempo].
  unfold Raising.tempo_of, Raising.py_float.
  destruct (get "tempo" (JObj kv)) as [|b|q|s|l|kv']; try (eexists; reflexivity).
  - apply negb_true_iff in Htempo. rewrite Htempo. eexists. reflexivity.
  - destruct (float_of_str s); eexists; reflexivity.
Qed.

Lemma save_track_feature_well_formed `{Runtime} `{Doubles} (now : Z)
    (db0 : database) (obj : json) :
  well_formed_record obj = true →
  Raising.save_track_feature now db0 obj =
  inr (match identity_of obj with
       | None => db0
       | Some sid => upsert_track_feature sid (stored_row now obj) db0
       end).
Proof.
  intros Hwf. destruct (well_formed_href obj Hwf) as [Hm He].
  destruct (well_formed_tempo obj Hwf) as [t Ht].
  unfold Raising.save_track_feature, stored_row. rewrite Hm, He, Ht.
  destruct (identity_of obj); reflexivity.
Qed.



Lemma upsert_rows_app (rowf : json → feature_row) (l1 l2 : list json)
    (db0 : database) :
  upsert_rows rowf (l1 ++ l2) db0 = upsert_rows rowf l2 (upsert_rows rowf l1 db0).
Proof. unfold upsert_rows. apply fold_left_app. Qed.

Lemma upsert_rows_other (rowf : json → feature_row) (objs : list json)
    (db0 : database) (k : string) :
  (∀ obj, In obj objs → identity_of obj ≠ Some k) →
  track_features (upsert_rows rowf objs db0) !! k = track_features db0 !! k.
Proof.
  revert db0. induction objs as [|obj objs IH]; intros db0 Hnone; [reflexivity|].
  change (upsert_rows rowf (obj :: objs) db0)
    with (upsert_rows rowf objs
            (match identity_of obj with
             | None => db0
             | Some sid => upsert_track_feature sid (rowf obj) db0
             end)).
  rewrite IH by (intros o Ho; apply Hnone; right; exact Ho).
  pose proof (Hnone obj (or_introl eq_refl)) as Hobj.
  destruct (identity_of obj) as [sid|]; [|reflexivity].
  simpl. apply lookup_insert_ne. congruence.
Qed.

(** The row of an identity is that of the last record that carries it. *)
Lemma upsert_rows_last (rowf : json → feature_row) (pre post : list json)
    (obj : json) (db0 : database) (k : string) :
  identity_of obj = Some k →
  (∀ o, In o post → identity_of o ≠ Some k) →
  track_features (upsert_rows rowf (pre ++ obj :: post) db0) !! k =
  Some (rowf obj).
Proof.
  intros Hid Hlast. rewrite upsert_rows_app.
  change (obj :: post) with ([obj] ++ post).
  rewrite upsert_rows_app, upsert_rows_other by exact Hlast.
  unfold upsert_rows. simpl. rewrite Hid. simpl. apply lookup_insert_eq.
Qed.





Lemma raising_reconcile_chunk_raises `{Runtime} `{Doubles} (rb : upstream)
    (now : Z) (w : world) (chunk : list string) (payload : json)
    (content : list json) (e : Raising.uncaught) :
  reccobeats rb (log w) (chunk_request chunk) = Returned payload →
  as_list (content_of payload) = Some content →
  Raising.save_track_features now content (db w) = inl e →
  Raising.reconcile_chunk rb now w chunk =
  (Some e, mk_world (db w) (log w ++ [chunk_request chunk])).
Proof.
  intros Hreply Hcontent Hsave. unfold Raising.reconcile_chunk.
  fold (chunk_request chunk). rewrite Hreply, Hcontent, Hsave. reflexivity.
Qed.













(** ** Tempo conversion *)

Lemma raising_save_track_feature_inr `{Runtime} `{Doubles} (now : Z)
    (db0 db1 : database) (obj : json) :
  Raising.save_track_feature now db0 obj = inr db1 →
  match identity_of obj with
  | None => db1 = db0
  | Some sid =>
      ∃ t, Raising.tempo_of (get "tempo" obj) = inr t ∧
           db1 = upsert_track_feature sid
                   (mk_feature t (Some obj) (CURRENT_TIMESTAMP now) "ok") db0
  end.
Proof.
  unfold Raising.save_track_feature, Raising.member, identity_of.
  destruct obj as [| | | | |kv]; try discriminate.
  unfold Raising.extract_spotify_id_from_href.
  destruct (get "href" (JObj kv)) as [|b|q|s|l|kv'] eqn:E;
    cbn [truthy as_str negb].
  - intros [= <-]. reflexivity.
  - destruct b; cbn [negb]; [discriminate | intros [= <-]; reflexivity].
  - destruct (Qeq_bool q 0); cbn [negb];
      [intros [= <-]; reflexivity | discriminate].
  - destruct s as [|c s]; [intros [= <-]; reflexivity|].
    change (negb (negb (String.eqb (String c s) ""))) with false. cbv iota.
    destruct (extract_spotify_id_from_href (Some (String c s))) as [sid|];
      [|intros [= <-]; reflexivity].
    destruct (Raising.tempo_of (get "tempo" (JObj kv))) as [e|t]; [discriminate|].
    intros [= <-]. exists t. auto.
  - destruct l; cbn [negb]; [intros [= <-]; reflexivity | discriminate].
  - destruct kv'; cbn [negb]; [intros [= <-]; reflexivity | discriminate].
Qed.

Lemma raising_save_track_feature_stored `{Runtime} `{Doubles} (now : Z)
    (db0 db1 : database) (obj : json) :
  Raising.save_track_feature now db0 obj = inr db1 →
  db1 = match identity_of obj with
        | None => db0
        | Some sid => upsert_track_feature sid (stored_row now obj) db0
        end.
Proof.
  intros Hsave. apply raising_save_track_feature_inr in Hsave.
  destruct (identity_of obj) as [sid|]; [|exact Hsave].
  destruct Hsave as (t & Ht & ->). unfold stored_row. rewrite Ht. reflexivity.
Qed.

(** A save that commits has upserted the stored row of every record that
    has an identity. *)
Lemma raising_save_track_features_inr `{Runtime} `{Doubles} (now : Z)
    (objs : list json) (db0 db1 : database) :
  Raising.save_track_features now objs db0 = inr db1 →
  db1 = upsert_rows (stored_row now) objs db0 ∧
  ∀ obj, In obj objs → is_Some (identity_of obj) →
         ∃ t, Raising.tempo_of (get "tempo" obj) = inr t.
Proof.
  revert db0. induction objs as [|obj objs IH]; intros db0; simpl.
  - intros [= <-]. split; [reflexivity | intros obj []].
  - destruct (Raising.save_track_feature now db0 obj) as [e|d] eqn:E;
      [discriminate|].
    intros Hrest. destruct (IH d Hrest) as [-> Htempo].
    pose proof (raising_save_track_feature_inr now db0 d obj E) as Hobj.
    rewrite (raising_save_track_feature_stored now db0 d obj E).
    split; [reflexivity|]. intros o [<-|Ho] Hid; [|exact (Htempo o Ho Hid)].
    destruct Hid as [sid Hid]. rewrite Hid in Hobj.
    destruct Hobj as (t & Ht & _). eauto.
Qed.

Lemma overflow_record_tempo `{Runtime} `{Doubles} :
  Raising.tempo_of (get "tempo" overflow_record) = inl Raising.Overflow_error.
Proof.
  change (get "tempo" overflow_record) with (JNum (inject_Z (10 ^ 400))).
  unfold Raising.tempo_of, Raising.py_float.
  replace (Raising.overflows (inject_Z (10 ^ 400))) with true
    by (vm_compute; reflexivity).
  reflexivity.
Qed.

Lemma overflow_record_save `{Runtime} `{Doubles} (now : Z) (db0 : database) :
  Raising.save_track_features now [overflow_record] db0 =
  inl Raising.Overflow_error.
Proof.
  cbn [Raising.save_track_features]. unfold Raising.save_track_feature.
  change (Raising.member "href" overflow_record)
    with (@inr Raising.uncaught json
            (JStr "https://api.reccobeats.com/v1/track/t1")).
  cbv iota.
  replace (Raising.extract_spotify_id_from_href
             (JStr "https://api.reccobeats.com/v1/track/t1"))
    with (@inr Raising.uncaught (option string) (Some "t1"))
    by (vm_compute; reflexivity).
  cbv iota. rewrite overflow_record_tempo. reflexivity.
Qed.

(** C10. When [float] rejects the tempo of a record with [ValueError] or
    [TypeError] (text that is no number, a list, an object), the error is
    caught: the record is stored under its identity with a null tempo, its
    raw features and status [ok], and the tempo filter then leaves the
    identity out.  When the tempo is an integer beyond the float range,
    [float] raises [OverflowError], which the [except] clause does not
    name: [save_track_features] raises, nothing is stored, and the error
    leaves the chunk loop. *)
Theorem save_track_features_tempo_conversion `{Runtime} `{Doubles} (now : Z)
    (db0 : database) :
  (∀ kv sid e,
     identity_of (JObj kv) = Some sid →
     Raising.py_float (get "tempo" (JObj kv)) = Raising.Caught e →
     let row := mk_feature None (Some (JObj kv)) (CURRENT_TIMESTAMP now) "ok" in
     Raising.save_track_features now [JObj kv] db0 =
       inr (upsert_track_feature sid row db0) ∧
     ∀ ids track_ids cadence_bpm,
       ¬ In sid (filter_tracks_by_tempo track_ids
                   (load_track_features (upsert_track_feature sid row db0) ids)
                   cadence_bpm)) ∧
  Raising.save_track_features now [overflow_record] db0 =
    inl Raising.Overflow_error ∧
  (∀ rb w chunk,
     reccobeats rb (log w) (chunk_request chunk) =
       Returned (JObj [("content", JList [overflow_record])]) →
     Raising.reconcile_chunk rb now w chunk =
       (Some Raising.Overflow_error,
        mk_world (db w) (log w ++ [chunk_request chunk]))).
Proof.
  split; [|split].
  - intros kv sid e Hid Hbad row.
    assert (Hwf : well_formed_record (JObj kv) = true).
    { unfold well_formed_record. apply andb_true_iff. split.
      - unfold identity_of in Hid.
        destruct (get "href" (JObj kv)); try discriminate.
        apply orb_true_r.
      - unfold Raising.py_float in Hbad.
        destruct (get "tempo" (JObj kv)) as [| |q| | |]; try reflexivity.
        destruct (Raising.overflows q); [discriminate | reflexivity]. }
    assert (Hrow : stored_row now (JObj kv) = row).
    { unfold stored_row, row, Raising.tempo_of. rewrite Hbad.
      destruct (get "tempo" (JObj kv)), e; reflexivity. }
    split.
    + cbn [Raising.save_track_features].
      rewrite (save_track_feature_well_formed now db0 _ Hwf), Hid, Hrow.
      reflexivity.
    + intros ids track_ids cadence_bpm Hin.
      apply filter_In in Hin as [_ Hband].
      apply within_band_true in Hband as (metrics & t & Hm & _ & Ht & _).
      rewrite load_track_features_lookup in Hm.
      case_decide; [|discriminate]. simpl in Hm.
      rewrite lookup_insert_eq in Hm. injection Hm as <-. discriminate.
  - apply overflow_record_save.
  - intros rb w chunk Hreply.
    apply (raising_reconcile_chunk_raises rb now w chunk _ [overflow_record]
             Raising.Overflow_error Hreply eq_refl).
    apply overflow_record_save.
Qed.

Lemma save_track_features_tempo_conversion_witness :
  @Raising.py_float decimal_runtime exact_doubles (get "tempo" bad_tempo_record) =
    Raising.Caught ValueError ∧
  @Raising.save_track_features decimal_runtime exact_doubles 5
    [bad_tempo_record] init_db =
    inr (upsert_track_feature "t1"
           (mk_feature None (Some bad_tempo_record) "5" "ok") init_db) ∧
  @Raising.save_track_features decimal_runtime exact_doubles 5
    [overflow_record] init_db = inl Raising.Overflow_error.
Proof.
  destruct (@save_track_features_tempo_conversion decimal_runtime exact_doubles
              5 init_db) as (Hcaught & Hover & _).
  split; [reflexivity|]. split; [|exact Hover].
  exact (proj1 (Hcaught
                  [("href", JStr "https://api.reccobeats.com/v1/track/t1");
                   ("tempo", JStr "fast")]
                  "t1" ValueError eq_refl eq_refl)).
Defined.

(** X6. Saving feature records and loading them back. When the save
    commits, an identity that is requested and carried by a record reads as
    the row of the last record that carries it: the raw record, status
    [ok], the timestamp of the write, and the tempo [float] gives (none for
    a null tempo or one [float] rejects with a caught error, the nearest
    double for a number inside the float range); a requested identity that
    no record carries reads as it did before the save; an identity that is
    not requested is not in the result.  A number beyond the float range
    makes the conversion raise. *)
Theorem save_track_features_round_trip `{Runtime} `{Doubles} (now : Z)
    (objs : list json) (db0 db1 : database) (ids : list string)
    (Hsave : Raising.save_track_features now objs db0 = inr db1) :
  (∀ pre obj post k,
     objs = pre ++ obj :: post →
     identity_of obj = Some k →
     (∀ o, In o post → identity_of o ≠ Some k) →
     In k ids →
     ∃ t, Raising.tempo_of (get "tempo" obj) = inr t ∧
          load_track_features db1 ids !! k =
            Some (mk_feature t (Some obj) (CURRENT_TIMESTAMP now) "ok")) ∧
  (∀ k, In k ids → ¬ In k (href_ids objs) →
     load_track_features db1 ids !! k = track_features db0 !! k) ∧
  (∀ k, ¬ In k ids → load_track_features db1 ids !! k = None) ∧
  Raising.tempo_of JNull = inr None ∧
  (∀ q, Raising.overflows q = false →
        Raising.tempo_of (JNum q) = inr (Some (nearest_double q))) ∧
  (∀ q, Raising.overflows q = true →
        Raising.tempo_of (JNum q) = inl Raising.Overflow_error) ∧
  (∀ s, Raising.tempo_of (JStr s) = inr (float_of_str s)) ∧
  (∀ b, Raising.tempo_of (JBool b) = inr (Some (if b then 1 else 0)%Q)) ∧
  (∀ l, Raising.tempo_of (JList l) = inr None) ∧
  (∀ kv, Raising.tempo_of (JObj kv) = inr None).
Proof.
  destruct (raising_save_track_features_inr now objs db0 db1 Hsave)
    as [-> Htempo].
  split; [|split; [|split]].
  - intros pre obj post k -> Hid Hlast Hk.
    destruct (Htempo obj) as [t Ht].
    { apply in_or_app. right. left. reflexivity. }
    { rewrite Hid. eexists. reflexivity. }
    exists t. split; [exact Ht|].
    rewrite load_track_features_lookup, decide_True by (apply list_elem_of_In, Hk).
    rewrite (upsert_rows_last _ pre post obj db0 k Hid Hlast).
    unfold stored_row. rewrite Ht. reflexivity.
  - intros k Hk Hout.
    rewrite load_track_features_lookup, decide_True by (apply list_elem_of_In, Hk).
    apply upsert_rows_other. intros obj Ho Hid. apply Hout, href_ids_in. eauto.
  - intros k Hk. rewrite load_track_features_lookup, decide_False; [reflexivity|].
    rewrite list_elem_of_In. exact Hk.
  - split; [reflexivity|]. unfold Raising.tempo_of, Raising.py_float.
    split; [intros q ->; reflexivity|]. split; [intros q ->; reflexivity|].
    split; [intros s; destruct (float_of_str s); reflexivity|].
    split; [intros b; reflexivity|]. split; intros; reflexivity.
Qed.

Lemma save_track_features_round_trip_witness :
  ∃ db1,
    @Raising.save_track_features decimal_runtime exact_doubles 0 test_features
      init_db = inr db1 ∧
    load_track_features db1 ["t1"; "t2"; "t3"] !! "t1" =
      Some (mk_feature (Some (241 # 2))
              (Some (JObj [("href", JStr "https://api.reccobeats.com/v1/track/t1");
                           ("tempo", JNum (241 # 2))])) "0" "ok") ∧
    (tempo <$> load_track_features db1 ["t1"; "t2"; "t3"] !! "t2") = Some None ∧
    load_track_features db1 ["t1"; "t2"; "t3"] !! "t3" = None.
Proof.
  eexists. split; [reflexivity|].
  destruct (@save_track_features_round_trip decimal_runtime exact_doubles 0
              test_features init_db _ ["t1"; "t2"; "t3"] eq_refl)
    as (Hin & Hout & _).
  split; [|split].
  - destruct (Hin [] _ [_] "t1" eq_refl eq_refl) as (t & Ht & ->).
    + intros o [<-|[]]. vm_compute. discriminate.
    + left. reflexivity.
    + injection Ht as <-. reflexivity.
  - destruct (Hin [_] _ [] "t2" eq_refl eq_refl) as (t & Ht & ->).
    + intros o [].
    + right. left. reflexivity.
    + injection Ht as <-. reflexivity.
  - rewrite Hout.
    + reflexivity.
    + right. right. left. reflexivity.
    + vm_compute. intros [?|[?|[]]]; discriminate.
Defined.
